(** * GraylogHUB: the GELF TCP-to-HTTP forwarder of [graylogHUB.py]

    A shallow embedding of [GELFForwarder]: the per-connection read loop
    [handle_client] with its rolling text buffer, the dispatcher
    [process_message], the retrying [forward_to_function] and the
    opportunistic [log_metrics].

    Modelling conventions.
    - A Python [str] is a list of Unicode code points ([N]); [bytes] is a
      list of [Byte.byte].  [bytes.decode('utf-8')] is the strict decoder
      [Utf8.decode].
    - [json.loads] is the recursive-descent scanner of CPython's [json]
      package, kept as a recogniser: it tells success, the [Extra data]
      position, or the message of the [JSONDecodeError].  The Python value
      it would build is a function of the text, so a parsed record is
      represented by its text.  The interpreter's resource limits (recursion
      depth, digit count of integer literals) are outside the model.
    - Python integers are [Z], [time.time()] readings and the two ratios of
      the metrics report are exact rationals ([Q]); float rounding is not
      modelled.
    - The world outside (clock, HTTP endpoint, socket) is explicit: the
      endpoint is a function from the ordinal of a request to its outcome,
      the socket is the list of values its [recv] calls return.
    - One handler runs at a time; interleavings of handler threads are not
      modelled. *)

From Stdlib Require Import Strings.Byte Strings.Ascii Strings.String.
From Stdlib Require Import DecimalString.
From Stdlib Require Import List Bool Arith ZArith NArith QArith Lia.
Import ListNotations.

Set Implicit Arguments.
Local Close Scope Q_scope.
Local Open Scope nat_scope.

(** ** Text and bytes *)

Definition str := list N.

Definition chr_dquote : N := 34.
Definition chr_backslash : N := 92.
Definition chr_lbrace : N := 123.
Definition chr_rbrace : N := 125.
Definition chr_lbracket : N := 91.
Definition chr_rbracket : N := 93.
Definition chr_colon : N := 58.
Definition chr_comma : N := 44.
Definition chr_minus : N := 45.
Definition chr_plus : N := 43.
Definition chr_dot : N := 46.
Definition chr_zero : N := 48.
Definition chr_u : N := 117.
Definition chr_bom : N := 65279.

(** Code points of an ASCII literal. *)
Definition lit (s : string) : str :=
  List.map N_of_ascii (list_ascii_of_string s).

(** JSON text written with apostrophes in place of double quotes. *)
Definition json_text (s : string) : str :=
  List.map (fun c => if N.eqb c 39 then chr_dquote else c) (lit s).

Definition bytes_of (s : str) : list byte :=
  List.map (fun c => match Byte.of_N c with Some b => b | None => x00 end) s.

(** [data.decode('utf-8')]: strict UTF-8, [None] is [UnicodeDecodeError]. *)
Module Utf8.

Definition is_cont (x : N) : bool := (128 <=? x)%N && (x <=? 191)%N.

Definition second_ok3 (x0 x1 : N) : bool :=
  if (x0 =? 224)%N then (160 <=? x1)%N && (x1 <=? 191)%N
  else if (x0 =? 237)%N then (128 <=? x1)%N && (x1 <=? 159)%N
  else is_cont x1.

Definition second_ok4 (x0 x1 : N) : bool :=
  if (x0 =? 240)%N then (144 <=? x1)%N && (x1 <=? 191)%N
  else if (x0 =? 244)%N then (128 <=? x1)%N && (x1 <=? 143)%N
  else is_cont x1.

Fixpoint decode (bs : list byte) : option str :=
  match bs with
  | [] => Some []
  | b0 :: t0 =>
    let x0 := Byte.to_N b0 in
    if (x0 <? 128)%N then option_map (cons x0) (decode t0)
    else if (194 <=? x0)%N && (x0 <=? 223)%N then
      match t0 with
      | b1 :: t1 =>
        let x1 := Byte.to_N b1 in
        if is_cont x1
        then option_map (cons ((x0 - 192) * 64 + (x1 - 128))%N) (decode t1)
        else None
      | _ => None
      end
    else if (224 <=? x0)%N && (x0 <=? 239)%N then
      match t0 with
      | b1 :: b2 :: t2 =>
        let x1 := Byte.to_N b1 in
        let x2 := Byte.to_N b2 in
        if second_ok3 x0 x1 && is_cont x2
        then option_map
               (cons ((x0 - 224) * 4096 + (x1 - 128) * 64 + (x2 - 128))%N)
               (decode t2)
        else None
      | _ => None
      end
    else if (240 <=? x0)%N && (x0 <=? 244)%N then
      match t0 with
      | b1 :: b2 :: b3 :: t3 =>
        let x1 := Byte.to_N b1 in
        let x2 := Byte.to_N b2 in
        let x3 := Byte.to_N b3 in
        if second_ok4 x0 x1 && is_cont x2 && is_cont x3
        then option_map
               (cons ((x0 - 240) * 262144 + (x1 - 128) * 4096
                      + (x2 - 128) * 64 + (x3 - 128))%N)
               (decode t3)
        else None
      | _ => None
      end
    else None
  end.

End Utf8.

(** ** [json.loads] *)
Module Json.

(** The messages of a [JSONDecodeError] other than [Extra data]. *)
Inductive err_msg :=
| ExpectingValue
| ExpectingPropertyName
| ExpectingColonDelimiter
| ExpectingCommaDelimiter
| UnterminatedString
| InvalidControlCharacter
| InvalidEscape
| InvalidUnicodeEscape
| UnexpectedBOM.

(** Result of a scanner: the unread rest of the text, or an error. *)
Inductive pres :=
| POk (rest : str)
| PErr (msg : err_msg).

Definition is_ws (c : N) : bool :=
  (c =? 32)%N || (c =? 9)%N || (c =? 10)%N || (c =? 13)%N.

Definition is_digit (c : N) : bool := (48 <=? c)%N && (c <=? 57)%N.

Definition is_hex (c : N) : bool :=
  is_digit c || ((65 <=? c)%N && (c <=? 70)%N)
  || ((97 <=? c)%N && (c <=? 102)%N).

(** The keys of [BACKSLASH]: the one-letter escapes. *)
Definition is_simple_escape (c : N) : bool :=
  (c =? 34)%N || (c =? 92)%N || (c =? 47)%N || (c =? 98)%N
  || (c =? 102)%N || (c =? 110)%N || (c =? 114)%N || (c =? 116)%N.

(** [WHITESPACE.match(s, idx).end()] *)
Fixpoint skip_ws (s : str) : str :=
  match s with
  | c :: t => if is_ws c then skip_ws t else s
  | [] => []
  end.

Fixpoint skip_digits (s : str) : str :=
  match s with
  | c :: t => if is_digit c then skip_digits t else s
  | [] => []
  end.

(** [scanstring], entered after the opening quote, as the automaton the
    loop over [STRINGCHUNK] walks through. *)
Inductive sstate :=
| SNormal
| SEscape
| SHex (left : nat).

Fixpoint scanstring (st : sstate) (s : str) : pres :=
  match s with
  | [] =>
    match st with
    | SHex _ => PErr InvalidUnicodeEscape
    | _ => PErr UnterminatedString
    end
  | c :: t =>
    match st with
    | SNormal =>
      if (c =? chr_dquote)%N then POk t
      else if (c =? chr_backslash)%N then scanstring SEscape t
      else if (c <? 32)%N then PErr InvalidControlCharacter
      else scanstring SNormal t
    | SEscape =>
      if (c =? chr_u)%N then scanstring (SHex 3) t
      else if is_simple_escape c then scanstring SNormal t
      else PErr InvalidEscape
    | SHex k =>
      if is_hex c
      then scanstring (match k with O => SNormal | S k' => SHex k' end) t
      else PErr InvalidUnicodeEscape
    end
  end.

(** [s[idx:idx+len(p)] == p], returning what follows. *)
Fixpoint strip_prefix (p s : str) : option str :=
  match p with
  | [] => Some s
  | a :: p' =>
    match s with
    | c :: t => if (c =? a)%N then strip_prefix p' t else None
    | [] => None
    end
  end.

(** [NUMBER_RE]: an optional minus sign; a zero, or a digit from 1 to 9
    and any digits; optionally a dot and at least one digit; optionally
    [e] or [E], an optional sign and at least one digit. *)
Definition match_frac (s : str) : str :=
  match s with
  | d :: c :: t =>
    if (d =? chr_dot)%N && is_digit c then skip_digits t else s
  | _ => s
  end.

Definition match_exp (s : str) : str :=
  match s with
  | e :: t =>
    if (e =? 101)%N || (e =? 69)%N then
      let t' :=
        match t with
        | g :: u => if (g =? chr_plus)%N || (g =? chr_minus)%N then u else t
        | [] => t
        end in
      match t' with
      | c :: u => if is_digit c then skip_digits u else s
      | [] => s
      end
    else s
  | [] => s
  end.

Definition match_int (s : str) : option str :=
  match s with
  | c :: t =>
    if (c =? chr_zero)%N then Some (match_exp (match_frac t))
    else if is_digit c then Some (match_exp (match_frac (skip_digits t)))
    else None
  | [] => None
  end.

Definition match_number (s : str) : option str :=
  match s with
  | c :: t => if (c =? chr_minus)%N then match_int t else match_int s
  | [] => None
  end.

Definition first_some (a b : option str) : option str :=
  match a with
  | Some r => Some r
  | None => b
  end.

(** The branches of [scan_once] that are not strings, objects or arrays,
    in the order the scanner tries them. *)
Definition scan_atom (s : str) : option str :=
  first_some (strip_prefix (lit "null") s)
 (first_some (strip_prefix (lit "true") s)
 (first_some (strip_prefix (lit "false") s)
 (first_some (match_number s)
 (first_some (strip_prefix (lit "NaN") s)
 (first_some (strip_prefix (lit "Infinity") s)
             (strip_prefix (lit "-Infinity") s)))))).

(** [scan_once], with the member loop of [JSONObject] and the element
    loop of [JSONArray].  The fuel bounds the nesting; [None] is an
    exhausted fuel, which [loads] never meets. *)
Fixpoint scan_once (fuel : nat) (s : str) : option pres :=
  match fuel with
  | O => None
  | S n =>
    match s with
    | [] => Some (PErr ExpectingValue)
    | c :: t =>
      if (c =? chr_dquote)%N then Some (scanstring SNormal t)
      else if (c =? chr_lbrace)%N then
        match skip_ws t with
        | c1 :: t1 =>
          if (c1 =? chr_rbrace)%N then Some (POk t1)
          else if (c1 =? chr_dquote)%N then JSONObject n t1
          else Some (PErr ExpectingPropertyName)
        | [] => Some (PErr ExpectingPropertyName)
        end
      else if (c =? chr_lbracket)%N then
        match skip_ws t with
        | c1 :: t1 =>
          if (c1 =? chr_rbracket)%N then Some (POk t1)
          else JSONArray n (c1 :: t1)
        | [] => JSONArray n []
        end
      else
        match scan_atom s with
        | Some r => Some (POk r)
        | None => Some (PErr ExpectingValue)
        end
    end
  end

with JSONObject (fuel : nat) (s : str) : option pres :=
  match fuel with
  | O => None
  | S n =>
    match scanstring SNormal s with
    | PErr m => Some (PErr m)
    | POk r =>
      match skip_ws r with
      | c :: r1 =>
        if (c =? chr_colon)%N then
          match scan_once n (skip_ws r1) with
          | None => None
          | Some (PErr m) => Some (PErr m)
          | Some (POk r2) =>
            match skip_ws r2 with
            | c2 :: r3 =>
              if (c2 =? chr_rbrace)%N then Some (POk r3)
              else if (c2 =? chr_comma)%N then
                match skip_ws r3 with
                | c3 :: r4 =>
                  if (c3 =? chr_dquote)%N then JSONObject n r4
                  else Some (PErr ExpectingPropertyName)
                | [] => Some (PErr ExpectingPropertyName)
                end
              else Some (PErr ExpectingCommaDelimiter)
            | [] => Some (PErr ExpectingCommaDelimiter)
            end
          end
        else Some (PErr ExpectingColonDelimiter)
      | [] => Some (PErr ExpectingColonDelimiter)
      end
    end
  end

with JSONArray (fuel : nat) (s : str) : option pres :=
  match fuel with
  | O => None
  | S n =>
    match scan_once n s with
    | None => None
    | Some (PErr m) => Some (PErr m)
    | Some (POk r) =>
      match skip_ws r with
      | c :: r1 =>
        if (c =? chr_rbracket)%N then Some (POk r1)
        else if (c =? chr_comma)%N then JSONArray n (skip_ws r1)
        else Some (PErr ExpectingCommaDelimiter)
      | [] => Some (PErr ExpectingCommaDelimiter)
      end
    end
  end.

(** What [json.loads(s)] does: return, or raise [JSONDecodeError] with
    message [Extra data] at [pos], or with another message. *)
Inductive outcome :=
| Parsed
| ExtraData (pos : nat)
| Failed (msg : err_msg).

(** [JSONDecoder.decode]: skip white space, [raw_decode], skip white space,
    and [Extra data] unless the text ends there. *)
Definition decode (fuel : nat) (s : str) : option outcome :=
  match s with
  | c :: _ =>
    if (c =? chr_bom)%N then Some (Failed UnexpectedBOM) else
    match scan_once fuel (skip_ws s) with
    | None => None
    | Some (PErr m) => Some (Failed m)
    | Some (POk r) =>
      match skip_ws r with
      | [] => Some Parsed
      | r' => Some (ExtraData (length s - length r'))
      end
    end
  | [] => Some (Failed ExpectingValue)
  end.

Definition fuel_for (s : str) : nat := S (length s + length s).

Definition loads (s : str) : outcome :=
  match decode (fuel_for s) s with
  | Some o => o
  | None => Failed ExpectingValue
  end.

End Json.

(** ** The world and the effects of the program *)

(** The exceptions the program meets; all derive from [Exception].  The
    program reads the message and position of a [JSONDecodeError] only
    where it calls [json.loads] itself, which [Json.outcome] covers. *)
Inductive exn :=
| JSONDecodeError
| UnicodeDecodeError
| RequestException
| SocketError
| ZeroDivisionError
| AttributeError
| OtherError.

(** [requests.post]: a response with its status code, a
    [requests.RequestException] (connection refused, time-out, DNS failure:
    the request got no response), or an exception of another class. *)
Inductive http_outcome :=
| Response (status_code : Z)
| NetworkFailure
| PostRaises (e : exn).

(** What [client_socket.recv] returns: bytes (none when the peer has
    closed), or an exception (time-out, socket error). *)
Inductive recv_event :=
| RecvData (data : list byte)
| RecvRaises.

Inductive log_record :=
| ErrorHandlingClient (e : exn)
| PerformanceMetrics
| MessagesPerSecond (v : Q)
| TotalProcessed (n : Z)
| TotalFailed (n : Z)
| FailureRate (v : Q)
| ActiveConnections (n : Z)
| ErrorForwardingHTTP (status_code : Z)
| ErrorInProcessMessage (e : exn).

(** The observable trace.  [Dispatch] marks a call of [process_message],
    [Post] a call of [requests.post] with the record it carries. *)
Inductive event :=
| Dispatch (message : str)
| Post (gelf_data : str)
| Sleep (seconds : Z)
| Log (r : log_record)
| Close.

(** The attributes of [GELFForwarder] the handlers read or write. *)
Record GELFForwarder := mkForwarder {
  buffer_size : Z;
  connection_timeout : Z;
  max_message_size : Z;
  messages_processed : Z;
  messages_failed : Z;
  connections_handled : Z;
  last_metrics_time : Q;
  metrics_interval : Q
}.

Record World := mkWorld {
  self : GELFForwarder;
  now : Q;
  posts_made : nat;
  trace : list event
}.

(** [GELFForwarder.__init__] *)
Definition init (buffer_size connection_timeout max_message_size : Z)
    (time_now : Q) : GELFForwarder :=
  {| buffer_size := buffer_size;
     connection_timeout := connection_timeout;
     max_message_size := max_message_size;
     messages_processed := 0;
     messages_failed := 0;
     connections_handled := 0;
     last_metrics_time := time_now;
     metrics_interval := 60 |}.

Inductive result (A : Type) :=
| Ret (a : A)
| Raise (e : exn).
Arguments Raise {A} e.

(** A computation runs in a world and ends with a value or an exception;
    [None] is an exhausted fuel. *)
Definition M (A : Type) := World -> option (result A * World).

Definition ret {A} (a : A) : M A := fun w => Some (Ret a, w).

Definition raise {A} (e : exn) : M A := fun w => Some (Raise e, w).

Definition bind {A B} (c : M A) (k : A -> M B) : M B :=
  fun w =>
    match c w with
    | None => None
    | Some (Ret a, w') => k a w'
    | Some (Raise e, w') => Some (Raise e, w')
    end.

(** [try: c  except ...: h e] *)
Definition try_except {A} (c : M A) (h : exn -> M A) : M A :=
  fun w =>
    match c w with
    | None => None
    | Some (Ret a, w') => Some (Ret a, w')
    | Some (Raise e, w') => h e w'
    end.

Declare Scope py_scope.
Delimit Scope py_scope with py.
Notation "x <- c ;; k" := (bind c (fun x => k))
  (at level 61, c at next level, right associativity) : py_scope.
Notation "c ;; k" := (bind c (fun _ => k))
  (at level 61, right associativity) : py_scope.
Local Open Scope py_scope.

Definition get_self : M GELFForwarder := fun w => Some (Ret (self w), w).

Definition set_self (f : GELFForwarder -> GELFForwarder) : M unit :=
  fun w => Some (Ret tt, {| self := f (self w); now := now w;
                            posts_made := posts_made w; trace := trace w |}).

Definition emit (e : event) : M unit :=
  fun w => Some (Ret tt, {| self := self w; now := now w;
                            posts_made := posts_made w;
                            trace := trace w ++ [e] |}).

Definition elapse (d : Q) : M unit :=
  fun w => Some (Ret tt, {| self := self w; now := (now w + d)%Q;
                            posts_made := posts_made w; trace := trace w |}).

(** [time.time()] *)
Definition time_time : M Q := fun w => Some (Ret (now w), w).

(** [time.sleep(seconds)] *)
Definition time_sleep (seconds : Z) : M unit :=
  emit (Sleep seconds) ;; elapse (inject_Z seconds).

Definition logger (r : log_record) : M unit := emit (Log r).

Definition set_messages_processed (v : Z) (f : GELFForwarder) :=
  {| buffer_size := buffer_size f;
     connection_timeout := connection_timeout f;
     max_message_size := max_message_size f;
     messages_processed := v;
     messages_failed := messages_failed f;
     connections_handled := connections_handled f;
     last_metrics_time := last_metrics_time f;
     metrics_interval := metrics_interval f |}.

Definition set_messages_failed (v : Z) (f : GELFForwarder) :=
  {| buffer_size := buffer_size f;
     connection_timeout := connection_timeout f;
     max_message_size := max_message_size f;
     messages_processed := messages_processed f;
     messages_failed := v;
     connections_handled := connections_handled f;
     last_metrics_time := last_metrics_time f;
     metrics_interval := metrics_interval f |}.

Definition set_connections_handled (v : Z) (f : GELFForwarder) :=
  {| buffer_size := buffer_size f;
     connection_timeout := connection_timeout f;
     max_message_size := max_message_size f;
     messages_processed := messages_processed f;
     messages_failed := messages_failed f;
     connections_handled := v;
     last_metrics_time := last_metrics_time f;
     metrics_interval := metrics_interval f |}.

Definition set_last_metrics_time (v : Q) (f : GELFForwarder) :=
  {| buffer_size := buffer_size f;
     connection_timeout := connection_timeout f;
     max_message_size := max_message_size f;
     messages_processed := messages_processed f;
     messages_failed := messages_failed f;
     connections_handled := connections_handled f;
     last_metrics_time := v;
     metrics_interval := metrics_interval f |}.

(** [json.loads(message)] as a statement of the program. *)
Definition py_json_loads (message : str) : M str :=
  match Json.loads message with
  | Json.Parsed => ret message
  | Json.ExtraData _ => raise JSONDecodeError
  | Json.Failed _ => raise JSONDecodeError
  end.

(** [buffer.find('{')] *)
Fixpoint find_brace (buffer : str) : option nat :=
  match buffer with
  | [] => None
  | c :: t =>
    if (c =? chr_lbrace)%N then Some O
    else option_map S (find_brace t)
  end.

(** ** The methods of [GELFForwarder] *)
Section Forwarder.

(** The downstream endpoint: the outcome of the [n]-th request made since
    the process started, and the time the request takes. *)
Variable endpoint : nat -> http_outcome * Q.

(** [requests.post(self.function_url, json=gelf_data, ...)] *)
Definition requests_post (gelf_data : str) : M Z :=
  fun w =>
    let (o, d) := endpoint (posts_made w) in
    let w' := {| self := self w; now := (now w + d)%Q;
                 posts_made := S (posts_made w);
                 trace := trace w ++ [Post gelf_data] |} in
    match o with
    | Response status_code => Some (Ret status_code, w')
    | NetworkFailure => Some (Raise RequestException, w')
    | PostRaises e => Some (Raise e, w')
    end.

(** The body of [for attempt in range(retries)], over the attempts that
    remain.  An attempt returns the response, raises, or (after its
    sleep) leaves the next attempt to run; a loop that runs out returns
    Python's [None]. *)
Fixpoint forward_loop (retries : nat) (retry_delay : Z)
    (attempts : list nat) (gelf_data : str) : M (option Z) :=
  match attempts with
  | [] => ret None
  | attempt :: rest =>
    r <- try_except
           (response <- requests_post gelf_data ;; ret (Some response))
           (fun e =>
              match e with
              | RequestException =>
                if (attempt =? retries - 1)%nat then raise e
                else time_sleep (retry_delay * (Z.of_nat attempt + 1)) ;;
                     ret None
              | _ => raise e
              end) ;;
    match r with
    | Some response => ret (Some response)
    | None => forward_loop retries retry_delay rest gelf_data
    end
  end.

(** [forward_to_function] *)
Definition forward_to_function (gelf_data : str) : M (option Z) :=
  let retries := 3%nat in
  let retry_delay := 1%Z in
  forward_loop retries retry_delay (seq 0 retries) gelf_data.

Definition failure_rate (processed failed : Z) : Q :=
  if (0 <? processed + failed)%Z
  then (inject_Z failed / inject_Z (processed + failed)) * 100
  else 0.

(** [log_metrics] *)
Definition log_metrics : M unit :=
  current_time <- time_time ;;
  s <- get_self ;;
  let elapsed := (current_time - last_metrics_time s)%Q in
  if Qle_bool (metrics_interval s) elapsed then
    (if Qeq_bool elapsed 0 then raise ZeroDivisionError else ret tt) ;;
    let messages_per_second :=
      (inject_Z (messages_processed s) / elapsed)%Q in
    let rate := failure_rate (messages_processed s) (messages_failed s) in
    logger PerformanceMetrics ;;
    logger (MessagesPerSecond messages_per_second) ;;
    logger (TotalProcessed (messages_processed s)) ;;
    logger (TotalFailed (messages_failed s)) ;;
    logger (FailureRate rate) ;;
    logger (ActiveConnections (connections_handled s)) ;;
    set_self (set_messages_processed 0) ;;
    set_self (set_messages_failed 0) ;;
    set_self (set_last_metrics_time current_time)
  else ret tt.

Definition status_ok (status_code : Z) : bool :=
  (status_code =? 200)%Z || (status_code =? 201)%Z
  || (status_code =? 202)%Z.

Definition incr_failed : M unit :=
  s <- get_self ;; set_self (set_messages_failed (messages_failed s + 1)).

Definition incr_processed : M unit :=
  s <- get_self ;;
  set_self (set_messages_processed (messages_processed s + 1)).

(** The test on [response.status_code] in [process_message]; the
    [None] that a loop run out would have returned has no
    [status_code]. *)
Definition classify_response (response : option Z) : M unit :=
  status_code <-
    match response with
    | Some status_code => ret status_code
    | None => raise AttributeError
    end ;;
  if negb (status_ok status_code)
  then logger (ErrorForwardingHTTP status_code) ;; incr_failed
  else incr_processed.

(** The two [except] clauses of [process_message]. *)
Definition process_message_except (e : exn) : M unit :=
  match e with
  | JSONDecodeError => incr_failed
  | _ => logger (ErrorInProcessMessage e) ;; incr_failed
  end.

(** [process_message] *)
Definition process_message (message : str) : M unit :=
  emit (Dispatch message) ;;
  try_except
    (gelf_data <- py_json_loads message ;;
     response <- forward_to_function gelf_data ;;
     classify_response response ;;
     log_metrics)
    process_message_except.

(** The loop [while True] that takes complete objects out of the buffer;
    it returns the buffer it leaves.  Each turn shortens the buffer, so a
    fuel above its length is never exhausted. *)
Fixpoint drain (fuel : nat) (buffer : str) : M str :=
  match fuel with
  | O => fun _ => None
  | S n =>
    match find_brace buffer with
    | None => ret []
    | Some start =>
      match Json.loads (skipn start buffer) with
      | Json.Parsed =>
        process_message (skipn start buffer) ;;
        ret []
      | Json.ExtraData pos =>
        process_message (firstn pos (skipn start buffer)) ;;
        drain n (skipn (start + pos) buffer)
      | Json.Failed _ => ret buffer
      end
    end
  end.

(** [data.decode('utf-8')] *)
Definition bytes_decode (data : list byte) : M str :=
  match Utf8.decode data with
  | Some decoded_data => ret decoded_data
  | None => raise UnicodeDecodeError
  end.

(** One chunk through the decoder: the statements of the [try] block
    after [recv], from [data.decode] to the end of the inner loop. *)
Definition feed (buffer : str) (data : list byte) : M str :=
  decoded_data <- bytes_decode data ;;
  let buffer := buffer ++ decoded_data in
  drain (S (length buffer)) buffer.

(** The loop [while True] of [handle_client] over what the socket
    delivers; a socket with nothing left to deliver has been closed by
    the peer. *)
Fixpoint read_loop (socket : list recv_event) (buffer : str) : M unit :=
  match socket with
  | [] => ret tt
  | RecvRaises :: _ =>
    logger (ErrorHandlingClient SocketError)
  | RecvData data :: rest =>
    match data with
    | [] => ret tt
    | _ =>
      r <- try_except
             (buffer' <- feed buffer data ;; ret (Some buffer'))
             (fun e => logger (ErrorHandlingClient e) ;; ret None) ;;
      match r with
      | Some buffer' => read_loop rest buffer'
      | None => ret tt
      end
    end
  end.

(** [handle_client] *)
Definition handle_client (socket : list recv_event) : M unit :=
  s <- get_self ;;
  set_self (set_connections_handled (connections_handled s + 1)) ;;
  read_loop socket [] ;;
  emit Close.

End Forwarder.

Fixpoint dispatched (t : list event) : list str :=
  match t with
  | [] => []
  | Dispatch m :: t' => m :: dispatched t'
  | _ :: t' => dispatched t'
  end.

Fixpoint posted (t : list event) : list str :=
  match t with
  | [] => []
  | Post m :: t' => m :: posted t'
  | _ :: t' => posted t'
  end.

(** ** Rendering and concrete worlds *)

Definition decimal (n : Z) : string :=
  NilZero.string_of_uint (N.to_uint (Z.to_N n)).

(** The nearest integer, ties to the even one. *)
Definition round_half_even (q : Q) : Z :=
  let n := Qnum q in
  let d := Z.pos (Qden q) in
  let fl := (n / d)%Z in
  let r2 := (2 * (n mod d))%Z in
  if (r2 <? d)%Z then fl
  else if (d <? r2)%Z then (fl + 1)%Z
  else if Z.even fl then fl else (fl + 1)%Z.

(** The format [:.2f] of the metrics lines, on an exact ratio. *)
Definition format_2f (q : Q) : string :=
  let h := round_half_even (q * 100) in
  let a := Z.abs h in
  ((if (h <? 0)%Z then "-" else EmptyString)
   ++ decimal (a / 100) ++ "."
   ++ (if (a mod 100 <? 10)%Z then "0" else EmptyString)
   ++ decimal (a mod 100))%string.

(** A forwarder as [__main__] builds it by default, started at time 0, and
    one whose [--max-message-size] is 8. *)
Definition world0 : World :=
  {| self := init 8192 60 1048576 0; now := 0; posts_made := 0; trace := [] |}.

Definition world_limit8 : World :=
  {| self := init 8192 60 8 0; now := 0; posts_made := 0; trace := [] |}.

(** A forwarder with 8 records processed and 2 failed, a minute after its
    last report. *)
Definition world_8_2 : World :=
  {| self := set_messages_failed 2
               (set_messages_processed 8 (init 8192 60 1048576 0));
     now := 60; posts_made := 10; trace := [] |}.

(** Endpoints: one that answers 200 at once, one that answers 400, one that
    no request reaches, one that is reached at the third attempt. *)
Definition always_ok : nat -> http_outcome * Q := fun _ => (Response 200, 0%Q).

Definition always_400 : nat -> http_outcome * Q := fun _ => (Response 400, 0%Q).

Definition refusing : nat -> http_outcome * Q := fun _ => (NetworkFailure, 0%Q).

Definition third_time_ok : nat -> http_outcome * Q :=
  fun n => if (n <? 2)%nat then (NetworkFailure, 0%Q) else (Response 202, 0%Q).

(** The bytes of [{"a":"é"}], and the two chunks that split the two bytes
    of its [é]. *)
Definition record_e_acute : list byte :=
  [x7b; x22; x61; x22; x3a; x22; xc3; xa9; x22; x7d].

Definition text_e_acute : str :=
  [123; 34; 97; 34; 58; 34; 233; 34; 125]%N.

Definition chunk_e_acute_1 : list byte := firstn 7 record_e_acute.

Definition chunk_e_acute_2 : list byte := skipn 7 record_e_acute.

(** ** Notions used in the statements and proofs *)

(** The trace of a forward that meets [k] network failures before its last
    request: a sleep of [i + 1] after the failure of attempt [i]. *)
Definition retry_trace (gelf_data : str) (k : nat) : list event :=
  concat (map (fun i => [Post gelf_data; Sleep (Z.of_nat i + 1)]) (seq 0 k))
  ++ [Post gelf_data].

(** The first [k] requests from the [start]-th on get no response. *)
Definition unreachable (endpoint : nat -> http_outcome * Q)
    (start k : nat) : Prop :=
  forall i, i < k -> fst (endpoint (start + i)) = NetworkFailure.

(** What no method but [handle_client] changes. *)
Definition same_connections (w w' : World) : Prop :=
  connections_handled (self w') = connections_handled (self w)
  /\ max_message_size (self w') = max_message_size (self w)
  /\ metrics_interval (self w') = metrics_interval (self w).

Definition world_with (w : World) (f : GELFForwarder) (t : list event) :=
  {| self := f; now := now w; posts_made := posts_made w; trace := t |}.

(** A computation that ends in every world, leaves the connection count
    alone and adds to the trace events that satisfy [I]. *)
Definition runs {A} (I : list event -> Prop) (c : M A) : Prop :=
  forall w, exists r w' t,
    c w = Some (r, w')
    /\ same_connections w w'
    /\ trace w' = trace w ++ t
    /\ I t.

(** Events that are neither a dispatch nor a request. *)
Definition quiet (t : list event) : Prop :=
  dispatched t = [] /\ posted t = [].

(** [r] is the end of [s]. *)
Definition is_suffix (r s : str) : Prop := exists o, s = o ++ r.

(** No constraint on the events. *)
Definition any (t : list event) : Prop := True.

(** The lines of one metrics report. *)
Definition snapshot_log (s : GELFForwarder) (elapsed : Q) : list event :=
  [Log PerformanceMetrics;
   Log (MessagesPerSecond (inject_Z (messages_processed s) / elapsed));
   Log (TotalProcessed (messages_processed s));
   Log (TotalFailed (messages_failed s));
   Log (FailureRate (failure_rate (messages_processed s) (messages_failed s)));
   Log (ActiveConnections (connections_handled s))].

(** A rest that a longer text cannot turn into more of a number. *)
Definition stops (r : str) : bool :=
  match r with
  | c :: _ =>
    negb (Json.is_digit c) && negb (c =? chr_dot)%N
    && negb (c =? 101)%N && negb (c =? 69)%N
  | [] => false
  end.

(** The rest after a value inside an object or an array that goes on:
    white space, then a closing bracket or a comma. *)
Definition delim_next (r : str) : bool :=
  match Json.skip_ws r with
  | c :: _ =>
    (c =? chr_rbrace)%N || (c =? chr_comma)%N || (c =? chr_rbracket)%N
  | [] => false
  end.

(** ** Notions for the further properties *)

(** A record as a producer serializes it: it starts with its opening
    brace, ends with its closing one and parses. *)
Definition closed_record (r : str) : Prop :=
  hd_error r = Some chr_lbrace
  /\ last r 0%N = chr_rbrace
  /\ Json.loads r = Json.Parsed.

(** A text that parses and starts with its opening brace. *)
Definition record_ok (r : str) : Prop :=
  hd_error r = Some chr_lbrace /\ Json.loads r = Json.Parsed.

(** The white space a text starts with: what
    [WHITESPACE.match(s, idx)] matches. *)
Fixpoint leading_ws (s : str) : str :=
  match s with
  | c :: t => if Json.is_ws c then c :: leading_ws t else []
  | [] => []
  end.

(** Records on the wire, each followed by its delimiter. *)
Definition frames_text (frames : list (str * str)) : str :=
  concat (map (fun f => fst f ++ snd f) frames).

(** [p] is empty, or the beginning of the first of [rs] and not all of
    it. *)
Definition partial_of (p : str) (rs : list str) : Prop :=
  p = [] \/ exists r rs' q, rs = r :: rs' /\ r = p ++ q /\ q <> [].

(** A rest at which a value ends whatever it is: the end of the text, or
    a character that continues no number. *)
Definition ends_value (y : str) : bool :=
  match y with
  | [] => true
  | _ => stops y
  end.

(** A rest that continues neither the digits nor the fraction of a
    number. *)
Definition ends_frac (y : str) : bool :=
  match y with
  | c :: _ => negb (Json.is_digit c) && negb (c =? chr_dot)%N
  | [] => true
  end.

(** A rest that continues no run of digits. *)
Definition ends_digits (y : str) : bool :=
  match y with
  | c :: _ => negb (Json.is_digit c)
  | [] => true
  end.

(** A computation that ends normally in every world. *)
Definition returns {A} (I : list event -> Prop) (c : M A) : Prop :=
  forall w, exists a w' t,
    c w = Some (Ret a, w')
    /\ same_connections w w'
    /\ trace w' = trace w ++ t
    /\ I t.

Definition no_close (t : list event) : Prop := ~ In Close t.

(** An endpoint that answers every request, with whatever status. *)
Definition responsive (endpoint : nat -> http_outcome * Q) : Prop :=
  forall n, exists status_code, fst (endpoint n) = Response status_code.

(** * Properties *)

Ltac break_hyp H :=
  match type of H with
  | context [match ?x with _ => _ end] => destruct x eqn:?
  | context [if ?x then _ else _] => destruct x eqn:?
  end.

Module JsonFacts.
Import Json.

Lemma skip_ws_length s : length (skip_ws s) <= length s.
Proof.
  induction s as [|c t IH]; simpl; [lia|].
  destruct (is_ws c); simpl; lia.
Qed.

Lemma skip_ws_app s x :
  skip_ws s <> [] -> skip_ws (s ++ x) = skip_ws s ++ x.
Proof.
  induction s as [|c t IH]; simpl; [congruence|].
  destruct (is_ws c); auto.
Qed.

Lemma skip_ws_cons_app s c r x :
  skip_ws s = c :: r -> skip_ws (s ++ x) = c :: r ++ x.
Proof.
  intros H. rewrite skip_ws_app; rewrite H; [reflexivity|discriminate].
Qed.

Lemma skip_ws_head s c r : skip_ws s = c :: r -> is_ws c = false.
Proof.
  induction s as [|a t IH]; simpl; [discriminate|].
  destruct (is_ws a) eqn:E; auto.
  intros H; injection H as -> _; exact E.
Qed.

Lemma skip_ws_idem s : skip_ws (skip_ws s) = skip_ws s.
Proof.
  induction s as [|a t IH]; simpl; auto.
  destruct (is_ws a) eqn:E; auto. simpl. now rewrite E.
Qed.

Lemma skip_ws_not_ws c t : is_ws c = false -> skip_ws (c :: t) = c :: t.
Proof. intros H; simpl; now rewrite H. Qed.

(** The white space [skip_ws] jumps over. *)
Lemma skip_ws_split s :
  exists w, s = w ++ skip_ws s /\ forallb is_ws w = true.
Proof.
  induction s as [|a t [w [E F]]]; simpl.
  - exists []; auto.
  - destruct (is_ws a) eqn:Ea.
    + exists (a :: w); simpl. rewrite Ea, F. split; [now f_equal|reflexivity].
    + exists []; auto.
Qed.

Lemma skip_ws_all_ws w r :
  forallb is_ws w = true -> skip_ws (w ++ r) = skip_ws r.
Proof.
  induction w as [|a t IH]; simpl; auto.
  intros H; apply andb_true_iff in H as [-> H]; auto.
Qed.

Lemma skip_ws_nil_all_ws s : skip_ws s = [] -> forallb is_ws s = true.
Proof.
  induction s as [|a t IH]; simpl; auto.
  destruct (is_ws a); [auto|discriminate].
Qed.

Lemma skip_digits_length s : length (skip_digits s) <= length s.
Proof.
  induction s as [|c t IH]; simpl; [lia|].
  destruct (is_digit c); simpl; lia.
Qed.

Lemma skip_digits_app s x :
  skip_digits s <> [] -> skip_digits (s ++ x) = skip_digits s ++ x.
Proof.
  induction s as [|c t IH]; simpl; [congruence|].
  destruct (is_digit c); auto.
Qed.

Lemma scanstring_length st s r :
  scanstring st s = POk r -> length r < length s.
Proof.
  revert st; induction s as [|c t IH]; intros st H; simpl in H.
  - destruct st; discriminate.
  - destruct st; repeat (break_hyp H; try discriminate);
      try (injection H as <-; simpl; lia);
      apply IH in H; simpl; lia.
Qed.

Lemma scanstring_app st s r x :
  scanstring st s = POk r -> scanstring st (s ++ x) = POk (r ++ x).
Proof.
  revert st; induction s as [|c t IH]; intros st H; simpl in H.
  - destruct st; discriminate.
  - simpl. destruct st; repeat (break_hyp H; try discriminate);
      try (injection H as <-; reflexivity); auto.
Qed.

Lemma strip_prefix_Some p s r : strip_prefix p s = Some r -> s = p ++ r.
Proof.
  revert s; induction p as [|a p IH]; intros s H; simpl in H.
  - now injection H as ->.
  - destruct s as [|c t]; [discriminate|].
    destruct (N.eqb_spec c a); [|discriminate].
    subst. simpl. f_equal. auto.
Qed.

Lemma match_frac_length s : length (match_frac s) <= length s.
Proof.
  destruct s as [|d [|c t]]; simpl; try lia.
  destruct ((d =? chr_dot)%N && is_digit c); simpl; [|lia].
  pose proof (skip_digits_length t); lia.
Qed.

Lemma match_exp_length s : length (match_exp s) <= length s.
Proof.
  destruct s as [|e t]; simpl; [lia|].
  destruct ((e =? 101)%N || (e =? 69)%N); simpl; [|lia].
  destruct t as [|g u]; simpl; [lia|].
  destruct ((g =? chr_plus)%N || (g =? chr_minus)%N).
  - destruct u as [|c u']; simpl; [lia|].
    destruct (is_digit c); simpl; [|lia].
    pose proof (skip_digits_length u'); lia.
  - destruct (is_digit g); simpl; [|lia].
    pose proof (skip_digits_length u); lia.
Qed.

Lemma match_int_length s r : match_int s = Some r -> length r < length s.
Proof.
  destruct s as [|c t]; simpl; [discriminate|].
  intros H. repeat (break_hyp H; try discriminate); injection H as <-.
  - pose proof (match_exp_length (match_frac t)).
    pose proof (match_frac_length t). lia.
  - pose proof (match_exp_length (match_frac (skip_digits t))).
    pose proof (match_frac_length (skip_digits t)).
    pose proof (skip_digits_length t). lia.
Qed.

Lemma match_number_length s r :
  match_number s = Some r -> length r < length s.
Proof.
  destruct s as [|c t]; [discriminate|]. unfold match_number.
  destruct (c =? chr_minus)%N; intros H; apply match_int_length in H;
    simpl length in *; lia.
Qed.

Lemma match_frac_app s x :
  match_frac s <> [] -> match_frac s <> [chr_dot] ->
  match_frac (s ++ x) = match_frac s ++ x.
Proof.
  destruct s as [|d [|c t]]; simpl; intros H1 H2.
  - congruence.
  - destruct x as [|c t]; simpl; auto.
    destruct (N.eqb_spec d chr_dot); [subst; congruence|reflexivity].
  - destruct ((d =? chr_dot)%N && is_digit c); auto.
    now apply skip_digits_app.
Qed.

Lemma stops_not_nil r : stops r = true -> r <> [].
Proof. destruct r; simpl; congruence. Qed.

Lemma match_exp_app s x :
  stops (match_exp s) = true -> match_exp (s ++ x) = match_exp s ++ x.
Proof.
  intros H. destruct s as [|e t]; [discriminate|].
  rewrite <- app_comm_cons. unfold match_exp in *.
  destruct ((e =? 101)%N || (e =? 69)%N) eqn:Ee; [|reflexivity].
  assert (Hs : forall u, stops (e :: u) = false).
  { intros u; simpl. apply orb_true_iff in Ee as [->| ->];
      rewrite ?andb_false_r; reflexivity. }
  destruct t as [|g u]; cbv beta iota in *.
  - rewrite Hs in H; discriminate.
  - rewrite <- app_comm_cons.
    destruct ((g =? chr_plus)%N || (g =? chr_minus)%N).
    + destruct u as [|c u']; cbv beta iota in *.
      * rewrite Hs in H; discriminate.
      * rewrite <- app_comm_cons. destruct (is_digit c).
        -- apply skip_digits_app. now apply stops_not_nil.
        -- rewrite Hs in H; discriminate.
    + destruct (is_digit g).
      * apply skip_digits_app. now apply stops_not_nil.
      * rewrite Hs in H; discriminate.
Qed.

Lemma stops_exp_input y :
  stops (match_exp y) = true -> y <> [] /\ y <> [chr_dot].
Proof.
  intros H; split; intros ->; vm_compute in H; discriminate.
Qed.

Lemma match_frac_input y : match_frac y <> [] -> y <> [].
Proof. intros H ->. now apply H. Qed.

Lemma match_int_app s r x :
  match_int s = Some r -> stops r = true ->
  match_int (s ++ x) = Some (r ++ x).
Proof.
  destruct s as [|c t]; simpl; [discriminate|].
  intros H Hr. repeat (break_hyp H; try discriminate); injection H as <-.
  - apply stops_exp_input in Hr as Hy. destruct Hy as [Hy1 Hy2].
    f_equal. rewrite match_frac_app by assumption.
    now apply match_exp_app.
  - apply stops_exp_input in Hr as Hy. destruct Hy as [Hy1 Hy2].
    f_equal. rewrite skip_digits_app by now apply match_frac_input.
    rewrite match_frac_app by assumption.
    now apply match_exp_app.
Qed.

Lemma match_int_nil : match_int [] = None.
Proof. reflexivity. Qed.

Lemma match_number_app s r x :
  match_number s = Some r -> stops r = true ->
  match_number (s ++ x) = Some (r ++ x).
Proof.
  destruct s as [|c t]; [discriminate|].
  rewrite <- app_comm_cons. unfold match_number.
  destruct (c =? chr_minus)%N; intros H Hr.
  - now apply match_int_app.
  - now apply (match_int_app (c :: t)).
Qed.

Lemma match_number_head s r :
  match_number s = Some r ->
  exists c t, s = c :: t /\ (c <= 57)%N.
Proof.
  destruct s as [|c t]; [discriminate|]. unfold match_number.
  intros H. exists c, t; split; auto.
  destruct (N.eqb_spec c chr_minus) as [->|_]; [vm_compute; discriminate|].
  simpl in H. destruct (N.eqb_spec c chr_zero) as [->|_];
    [vm_compute; discriminate|].
  destruct (is_digit c) eqn:E; [|discriminate].
  unfold is_digit in E. apply andb_true_iff in E as [_ E].
  now apply N.leb_le in E.
Qed.

Lemma scan_atom_length s r : scan_atom s = Some r -> length r < length s.
Proof.
  unfold scan_atom, first_some. intros H.
  repeat (break_hyp H;
          [injection H as <-;
           first [ now apply match_number_length
                 | match goal with
                   | E : strip_prefix _ _ = Some _ |- _ =>
                     apply strip_prefix_Some in E; subst s;
                     rewrite length_app; simpl; lia
                   end ] |]).
  apply strip_prefix_Some in H; subst s. rewrite length_app; simpl; lia.
Qed.

Lemma scan_atom_app s r x :
  scan_atom s = Some r -> stops r = true ->
  scan_atom (s ++ x) = Some (r ++ x).
Proof.
  unfold scan_atom at 1, first_some. intros H Hr.
  destruct (strip_prefix (lit "null") s) eqn:E1.
  { injection H as <-. apply strip_prefix_Some in E1; subst s. reflexivity. }
  destruct (strip_prefix (lit "true") s) eqn:E2.
  { injection H as <-. apply strip_prefix_Some in E2; subst s. reflexivity. }
  destruct (strip_prefix (lit "false") s) eqn:E3.
  { injection H as <-. apply strip_prefix_Some in E3; subst s. reflexivity. }
  destruct (match_number s) eqn:E4.
  { injection H as <-.
    destruct (match_number_head _ E4) as (c & t & -> & Hc).
    unfold scan_atom, first_some.
    assert (Hn : forall a, (57 < a)%N -> (c =? a)%N = false).
    { intros a Ha. apply N.eqb_neq. lia. }
    change (lit "null") with [110; 117; 108; 108]%N.
    change (lit "true") with [116; 114; 117; 101]%N.
    change (lit "false") with [102; 97; 108; 115; 101]%N.
    simpl strip_prefix. rewrite !Hn by lia.
    now rewrite (match_number_app _ x E4 Hr). }
  destruct (strip_prefix (lit "NaN") s) eqn:E5.
  { injection H as <-. apply strip_prefix_Some in E5; subst s. reflexivity. }
  destruct (strip_prefix (lit "Infinity") s) eqn:E6.
  { injection H as <-. apply strip_prefix_Some in E6; subst s. reflexivity. }
  apply strip_prefix_Some in H; subst s. reflexivity.
Qed.

(** One unfolding of each scanner. *)
Lemma scan_once_S n s :
  scan_once (S n) s =
  match s with
  | [] => Some (PErr ExpectingValue)
  | c :: t =>
    if (c =? chr_dquote)%N then Some (scanstring SNormal t)
    else if (c =? chr_lbrace)%N then
      match skip_ws t with
      | c1 :: t1 =>
        if (c1 =? chr_rbrace)%N then Some (POk t1)
        else if (c1 =? chr_dquote)%N then JSONObject n t1
        else Some (PErr ExpectingPropertyName)
      | [] => Some (PErr ExpectingPropertyName)
      end
    else if (c =? chr_lbracket)%N then
      match skip_ws t with
      | c1 :: t1 =>
        if (c1 =? chr_rbracket)%N then Some (POk t1)
        else JSONArray n (c1 :: t1)
      | [] => JSONArray n []
      end
    else
      match scan_atom s with
      | Some r => Some (POk r)
      | None => Some (PErr ExpectingValue)
      end
  end.
Proof. reflexivity. Qed.

Lemma JSONObject_S n s :
  JSONObject (S n) s =
  match scanstring SNormal s with
  | PErr m => Some (PErr m)
  | POk r =>
    match skip_ws r with
    | c :: r1 =>
      if (c =? chr_colon)%N then
        match scan_once n (skip_ws r1) with
        | None => None
        | Some (PErr m) => Some (PErr m)
        | Some (POk r2) =>
          match skip_ws r2 with
          | c2 :: r3 =>
            if (c2 =? chr_rbrace)%N then Some (POk r3)
            else if (c2 =? chr_comma)%N then
              match skip_ws r3 with
              | c3 :: r4 =>
                if (c3 =? chr_dquote)%N then JSONObject n r4
                else Some (PErr ExpectingPropertyName)
              | [] => Some (PErr ExpectingPropertyName)
              end
            else Some (PErr ExpectingCommaDelimiter)
          | [] => Some (PErr ExpectingCommaDelimiter)
          end
        end
      else Some (PErr ExpectingColonDelimiter)
    | [] => Some (PErr ExpectingColonDelimiter)
    end
  end.
Proof. reflexivity. Qed.

Lemma JSONArray_S n s :
  JSONArray (S n) s =
  match scan_once n s with
  | None => None
  | Some (PErr m) => Some (PErr m)
  | Some (POk r) =>
    match skip_ws r with
    | c :: r1 =>
      if (c =? chr_rbracket)%N then Some (POk r1)
      else if (c =? chr_comma)%N then JSONArray n (skip_ws r1)
      else Some (PErr ExpectingCommaDelimiter)
    | [] => Some (PErr ExpectingCommaDelimiter)
    end
  end.
Proof. reflexivity. Qed.

Lemma scan_zero s :
  scan_once 0 s = None /\ JSONObject 0 s = None /\ JSONArray 0 s = None.
Proof. repeat split. Qed.

Ltac len_facts :=
  repeat match goal with
  | E : skip_ws ?a = ?b |- _ =>
    let L := fresh "L" in
    assert (L : length b <= length a)
      by (rewrite <- E; apply skip_ws_length);
    clear E
  | E : scanstring _ _ = POk _ |- _ => apply scanstring_length in E
  | E : scan_atom _ = Some _ |- _ => apply scan_atom_length in E
  end;
  repeat match goal with
  | H : context [length (skip_ws ?a)] |- _ =>
    lazymatch goal with
    | _ : length (skip_ws a) <= length a |- _ => fail
    | _ => pose proof (skip_ws_length a)
    end
  | |- context [length (skip_ws ?a)] =>
    lazymatch goal with
    | _ : length (skip_ws a) <= length a |- _ => fail
    | _ => pose proof (skip_ws_length a)
    end
  end.

(** A scanner that succeeds has read at least one character. *)
Lemma scan_length n :
  (forall s r, scan_once n s = Some (POk r) -> length r < length s)
  /\ (forall s r, JSONObject n s = Some (POk r) -> length r < length s)
  /\ (forall s r, JSONArray n s = Some (POk r) -> length r < length s).
Proof.
  induction n as [|n (IH1 & IH2 & IH3)].
  { repeat split; intros s r H; discriminate. }
  repeat split; intros s r H.
  - rewrite scan_once_S in H.
    repeat (break_hyp H; try discriminate);
      try (injection H as H; try subst r);
      try (apply IH2 in H); try (apply IH3 in H);
      len_facts; simpl in *; try lia.
  - rewrite JSONObject_S in H.
    repeat (break_hyp H; try discriminate);
      try (injection H as H; try subst r);
      try (apply IH2 in H);
      repeat match goal with
             | E : scan_once n _ = Some (POk _) |- _ => apply IH1 in E
             end;
      len_facts; simpl in *; try lia.
  - rewrite JSONArray_S in H.
    repeat (break_hyp H; try discriminate);
      try (injection H as H; try subst r);
      try (apply IH3 in H);
      repeat match goal with
             | E : scan_once n _ = Some (POk _) |- _ => apply IH1 in E
             end;
      len_facts; simpl in *; try lia.
Qed.

(** Twice the length of the text is fuel enough. *)
Lemma scan_fuel n :
  (forall s, 2 * length s < n -> scan_once n s <> None)
  /\ (forall s, 2 * length s < n -> JSONObject n s <> None)
  /\ (forall s, 2 * length s + 2 <= n -> JSONArray n s <> None).
Proof.
  induction n as [|n (IH1 & IH2 & IH3)].
  { repeat split; intros s H; lia. }
  destruct (scan_length n) as (L1 & _ & _).
  repeat split; intros s Hl H.
  - rewrite scan_once_S in H.
    repeat (break_hyp H; try discriminate);
      first [ refine (IH2 _ _ H) | refine (IH3 _ _ H) ];
      len_facts; simpl in *; lia.
  - rewrite JSONObject_S in H.
    repeat (break_hyp H; try discriminate);
      first [ refine (IH2 _ _ H)
            | match goal with
              | E : scan_once n _ = None |- _ => refine (IH1 _ _ E)
              end ];
      repeat match goal with
             | E : scan_once n _ = Some (POk _) |- _ => apply L1 in E
             end;
      len_facts; simpl in *; lia.
  - rewrite JSONArray_S in H.
    repeat (break_hyp H; try discriminate);
      first [ refine (IH3 _ _ H)
            | match goal with
              | E : scan_once n _ = None |- _ => refine (IH1 _ _ E)
              end ];
      repeat match goal with
             | E : scan_once n _ = Some (POk _) |- _ => apply L1 in E
             end;
      len_facts; simpl in *; lia.
Qed.

(** More fuel does not change a result. *)
Lemma scan_mono_S n :
  (forall s r, scan_once n s = Some r -> scan_once (S n) s = Some r)
  /\ (forall s r, JSONObject n s = Some r -> JSONObject (S n) s = Some r)
  /\ (forall s r, JSONArray n s = Some r -> JSONArray (S n) s = Some r).
Proof.
  induction n as [|n (IH1 & IH2 & IH3)].
  { repeat split; intros s r H; discriminate. }
  repeat split; intros s r H.
  - rewrite scan_once_S in H |- *.
    repeat (break_hyp H; try discriminate); auto.
  - rewrite JSONObject_S in H |- *.
    repeat match type of H with
           | context [match scan_once n ?a with _ => _ end] =>
             let E := fresh "E" in
             destruct (scan_once n a) eqn:E;
             [apply IH1 in E; rewrite E | discriminate]
           | context [match ?x with _ => _ end] => destruct x eqn:?
           | context [if ?x then _ else _] => destruct x eqn:?
           end; auto.
  - rewrite JSONArray_S in H |- *.
    repeat match type of H with
           | context [match scan_once n ?a with _ => _ end] =>
             let E := fresh "E" in
             destruct (scan_once n a) eqn:E;
             [apply IH1 in E; rewrite E | discriminate]
           | context [match ?x with _ => _ end] => destruct x eqn:?
           | context [if ?x then _ else _] => destruct x eqn:?
           end; auto.
Qed.

Lemma scan_once_mono n m s r :
  n <= m -> scan_once n s = Some r -> scan_once m s = Some r.
Proof.
  induction 1 as [|m _ IH]; auto.
  intros H. now apply scan_mono_S, IH.
Qed.

Lemma scan_once_nil n r : scan_once n [] <> Some (POk r).
Proof. destruct n; discriminate. Qed.

Lemma JSONArray_nil n r : JSONArray n [] <> Some (POk r).
Proof. destruct n as [|[|n]]; discriminate. Qed.

Lemma delim_next_stops r : delim_next r = true -> stops r = true.
Proof.
  unfold delim_next. destruct r as [|a t]; [discriminate|].
  simpl. destruct (is_ws a) eqn:Ea.
  - intros _. unfold is_ws in Ea.
    repeat (apply orb_true_iff in Ea as [Ea|Ea]);
      apply N.eqb_eq in Ea; subst a; reflexivity.
  - intros H.
    repeat (apply orb_true_iff in H as [H|H]);
      apply N.eqb_eq in H; subst a; reflexivity.
Qed.

(** A value that is followed by its delimiter, an object and an array
    are read the same way whatever comes after them. *)
Lemma scan_app n x :
  (forall s r, scan_once n s = Some (POk r) -> delim_next r = true ->
               scan_once n (s ++ x) = Some (POk (r ++ x)))
  /\ (forall s r, JSONObject n s = Some (POk r) ->
                  JSONObject n (s ++ x) = Some (POk (r ++ x)))
  /\ (forall s r, JSONArray n s = Some (POk r) ->
                  JSONArray n (s ++ x) = Some (POk (r ++ x))).
Proof.
  induction n as [|n (IH1 & IH2 & IH3)].
  { repeat split; intros; discriminate. }
  repeat split.
  - intros s r H Hd. rewrite scan_once_S in H.
    destruct s as [|c t]; [discriminate|].
    rewrite <- app_comm_cons, scan_once_S.
    destruct (c =? chr_dquote)%N.
    { injection H as H. f_equal. now apply scanstring_app. }
    destruct (c =? chr_lbrace)%N.
    { destruct (skip_ws t) as [|c1 t1] eqn:E; [discriminate|].
      rewrite (skip_ws_cons_app _ x E).
      destruct (c1 =? chr_rbrace)%N; [now injection H as <-|].
      destruct (c1 =? chr_dquote)%N; [|discriminate].
      now apply IH2. }
    destruct (c =? chr_lbracket)%N.
    { destruct (skip_ws t) as [|c1 t1] eqn:E.
      { now apply JSONArray_nil in H. }
      rewrite (skip_ws_cons_app _ x E).
      destruct (c1 =? chr_rbracket)%N; [now injection H as <-|].
      change (c1 :: t1 ++ x) with ((c1 :: t1) ++ x). now apply IH3. }
    destruct (scan_atom (c :: t)) eqn:E; [|discriminate].
    injection H as <-.
    change (c :: t ++ x) with ((c :: t) ++ x).
    rewrite (scan_atom_app _ x E); [reflexivity|].
    now apply delim_next_stops.
  - intros s r H. rewrite JSONObject_S in H |- *.
    destruct (scanstring SNormal s) as [r0|] eqn:E0; [|discriminate].
    rewrite (scanstring_app _ _ x E0).
    destruct (skip_ws r0) as [|c r1] eqn:E1; [discriminate|].
    rewrite (skip_ws_cons_app _ x E1).
    destruct (c =? chr_colon)%N; [|discriminate].
    destruct (scan_once n (skip_ws r1)) as [[r2|]|] eqn:E2;
      try discriminate.
    assert (Hne : skip_ws r1 <> []).
    { intros Hn; rewrite Hn in E2. now apply scan_once_nil in E2. }
    rewrite (skip_ws_app _ x Hne).
    destruct (skip_ws r2) as [|c2 r3] eqn:E3; [discriminate|].
    assert (Hd : delim_next r2 = true).
    { unfold delim_next; rewrite E3.
      destruct (c2 =? chr_rbrace)%N; [reflexivity|].
      destruct (c2 =? chr_comma)%N; [reflexivity|discriminate]. }
    rewrite (IH1 _ _ E2 Hd), (skip_ws_cons_app _ x E3).
    destruct (c2 =? chr_rbrace)%N; [now injection H as <-|].
    destruct (c2 =? chr_comma)%N; [|discriminate].
    destruct (skip_ws r3) as [|c3 r4] eqn:E4; [discriminate|].
    rewrite (skip_ws_cons_app _ x E4).
    destruct (c3 =? chr_dquote)%N; [|discriminate].
    now apply IH2.
  - intros s r H. rewrite JSONArray_S in H |- *.
    destruct (scan_once n s) as [[r0|]|] eqn:E0; try discriminate.
    destruct (skip_ws r0) as [|c r1] eqn:E1; [discriminate|].
    assert (Hd : delim_next r0 = true).
    { unfold delim_next; rewrite E1.
      destruct (c =? chr_rbracket)%N; [now rewrite !orb_true_r|].
      destruct (c =? chr_comma)%N; [now rewrite orb_true_r|discriminate]. }
    rewrite (IH1 _ _ E0 Hd), (skip_ws_cons_app _ x E1).
    destruct (c =? chr_rbracket)%N; [now injection H as <-|].
    destruct (c =? chr_comma)%N; [|discriminate].
    assert (Hne : skip_ws r1 <> []).
    { intros Hn; rewrite Hn in H. now apply JSONArray_nil in H. }
    rewrite (skip_ws_app _ x Hne). now apply IH3.
Qed.

(** An object is read the same way whatever comes after it. *)
Lemma scan_object_app n t r x :
  scan_once n (chr_lbrace :: t) = Some (POk r) ->
  scan_once n (chr_lbrace :: t ++ x) = Some (POk (r ++ x)).
Proof.
  destruct n as [|n]; [discriminate|].
  rewrite !scan_once_S. cbv beta iota.
  change (chr_lbrace =? chr_dquote)%N with false.
  change (chr_lbrace =? chr_lbrace)%N with true. cbv beta iota.
  destruct (skip_ws t) as [|c1 t1] eqn:E; [discriminate|].
  rewrite (skip_ws_cons_app _ x E).
  destruct (c1 =? chr_rbrace)%N; [now intros H; injection H as <-|].
  destruct (c1 =? chr_dquote)%N; [|discriminate].
  apply scan_app.
Qed.

(** [loads] never runs out of fuel, and more fuel gives the same
    outcome. *)
Lemma decode_fuel s : decode (fuel_for s) s <> None.
Proof.
  unfold decode, fuel_for. destruct s as [|c t]; [discriminate|].
  destruct (c =? chr_bom)%N; [discriminate|].
  destruct (scan_once _ _) as [[r|m]|] eqn:E.
  - destruct (skip_ws r); discriminate.
  - discriminate.
  - exfalso. revert E. apply scan_fuel.
    pose proof (skip_ws_length (c :: t)). lia.
Qed.

Lemma decode_mono n m s o :
  n <= m -> decode n s = Some o -> decode m s = Some o.
Proof.
  intros Hle. unfold decode. destruct s as [|c t]; auto.
  destruct (c =? chr_bom)%N; auto.
  destruct (scan_once n _) as [p|] eqn:E; [|discriminate].
  now rewrite (scan_once_mono _ Hle E).
Qed.

Lemma loads_decode s n : fuel_for s <= n -> decode n s = Some (loads s).
Proof.
  intros Hle. unfold loads.
  destruct (decode (fuel_for s) s) eqn:E.
  - now apply (decode_mono _ Hle).
  - now apply decode_fuel in E.
Qed.

Lemma fuel_for_app s x : fuel_for s <= fuel_for (s ++ x).
Proof. unfold fuel_for. rewrite length_app. lia. Qed.

(** [loads] on a text that starts with a brace. *)
Lemma loads_object t :
  loads (chr_lbrace :: t) =
  match scan_once (fuel_for (chr_lbrace :: t)) (chr_lbrace :: t) with
  | Some (POk r) =>
    match skip_ws r with
    | [] => Parsed
    | r' => ExtraData (length (chr_lbrace :: t) - length r')
    end
  | Some (PErr m) => Failed m
  | None => Failed ExpectingValue
  end.
Proof.
  unfold loads, decode.
  change (chr_lbrace =? chr_bom)%N with false. cbv beta iota.
  rewrite skip_ws_not_ws by reflexivity.
  destruct (scan_once _ _) as [[r|m]|]; auto.
  destruct (skip_ws r); auto.
Qed.

Lemma scan_object_total t :
  exists p, scan_once (fuel_for (chr_lbrace :: t)) (chr_lbrace :: t) = Some p.
Proof.
  destruct (scan_once _ _) as [p|] eqn:E; [now exists p|].
  exfalso. revert E. apply scan_fuel. unfold fuel_for. lia.
Qed.

(** The position of [Extra data] lies strictly inside the text. *)
Lemma loads_extra_pos s pos :
  loads s = ExtraData pos -> 0 < pos < length s.
Proof.
  unfold loads, decode. destruct s as [|c t]; [discriminate|].
  destruct (c =? chr_bom)%N; [discriminate|].
  destruct (scan_once _ _) as [[r|m]|] eqn:E; try discriminate.
  destruct (skip_ws r) as [|c' r'] eqn:Er; [discriminate|].
  intros H; injection H as <-.
  apply scan_length in E.
  pose proof (skip_ws_length (c :: t)).
  pose proof (skip_ws_length r) as L. rewrite Er in L.
  simpl in *. lia.
Qed.

(** A parsed object followed by more text: [Extra data] at the end of
    the object and of the white space after it. *)
Lemma loads_concat t x :
  loads (chr_lbrace :: t) = Parsed ->
  skip_ws x <> [] ->
  loads ((chr_lbrace :: t) ++ x) =
  ExtraData (length (chr_lbrace :: t) + (length x - length (skip_ws x))).
Proof.
  intros H Hx. rewrite loads_object in H.
  destruct (scan_once _ _) as [[r|m]|] eqn:E; try discriminate.
  destruct (skip_ws r) eqn:Er; [clear H|discriminate].
  rewrite <- app_comm_cons, loads_object.
  apply scan_object_app with (x := x) in E.
  apply (scan_once_mono _ (fuel_for_app (chr_lbrace :: t) x)) in E.
  simpl app in E. rewrite E.
  rewrite skip_ws_all_ws by now apply skip_ws_nil_all_ws.
  destruct (skip_ws x) as [|c' x'] eqn:Ex; [congruence|].
  f_equal. pose proof (skip_ws_length x) as L. rewrite Ex in L.
  simpl in *. rewrite length_app. lia.
Qed.

(** A text the scanner reads as one object up to its last character:
    none of its proper prefixes parses, nor has a complete object in
    front. *)
Lemma loads_proper_prefix t p x :
  scan_once (fuel_for (chr_lbrace :: t)) (chr_lbrace :: t) = Some (POk []) ->
  chr_lbrace :: t = p ++ x -> p <> [] -> x <> [] ->
  exists m, loads p = Failed m.
Proof.
  intros H Hs Hp Hx.
  destruct p as [|c p']; [congruence|].
  injection Hs as <- ->.
  rewrite loads_object.
  destruct (scan_object_total p') as [[r|m] E]; rewrite E.
  - exfalso. apply scan_object_app with (x := x) in E.
    apply (scan_once_mono _ (fuel_for_app (chr_lbrace :: p') x)) in E.
    simpl app in E. rewrite H in E. injection E as E. symmetry in E.
    apply app_eq_nil in E as [_ E]. congruence.
  - now exists m.
Qed.

End JsonFacts.

Module SuffixFacts.
Import Json JsonFacts.

Lemma suffix_refl s : is_suffix s s.
Proof. now exists []. Qed.

Lemma suffix_trans a b c : is_suffix a b -> is_suffix b c -> is_suffix a c.
Proof.
  intros [o1 ->] [o2 ->]. exists (o2 ++ o1). now rewrite app_assoc.
Qed.

Lemma suffix_nil s : is_suffix [] s.
Proof. exists s. now rewrite app_nil_r. Qed.

Lemma suffix_cons c s : is_suffix s (c :: s).
Proof. now exists [c]. Qed.

Lemma suffix_tail c r s : is_suffix (c :: r) s -> is_suffix r s.
Proof. intros H. eapply suffix_trans; [apply suffix_cons|exact H]. Qed.

Lemma suffix_length r s : is_suffix r s -> length r <= length s.
Proof. intros [o ->]. rewrite length_app. lia. Qed.

Lemma skip_ws_suffix s : is_suffix (skip_ws s) s.
Proof. destruct (skip_ws_split s) as (w & E & _). now exists w. Qed.

Lemma skip_digits_suffix s : is_suffix (skip_digits s) s.
Proof.
  induction s as [|c t IH]; simpl; [apply suffix_refl|].
  destruct (is_digit c); [|apply suffix_refl].
  eapply suffix_trans; [exact IH|apply suffix_cons].
Qed.

Lemma scanstring_suffix st s r : scanstring st s = POk r -> is_suffix r s.
Proof.
  revert st; induction s as [|c t IH]; intros st H; simpl in H.
  - destruct st; discriminate.
  - destruct st; repeat (break_hyp H; try discriminate);
      try (injection H as <-; apply suffix_cons);
      (eapply suffix_trans; [eapply IH; eassumption|apply suffix_cons]).
Qed.

Ltac chain :=
  first
    [ apply suffix_refl
    | apply suffix_nil
    | eassumption
    | apply suffix_cons
    | match goal with
      | H : is_suffix ?x ?y |- is_suffix ?x _ =>
        apply (suffix_trans H); chain
      end
    | match goal with
      | |- is_suffix _ (_ :: ?s) =>
        apply (fun H => suffix_trans H (suffix_cons _ s)); chain
      end ].

Lemma match_frac_suffix s : is_suffix (match_frac s) s.
Proof.
  destruct s as [|d [|c t]]; simpl; try apply suffix_refl.
  destruct ((d =? chr_dot)%N && is_digit c); [|apply suffix_refl].
  pose proof (skip_digits_suffix t). chain.
Qed.

Lemma match_exp_suffix s : is_suffix (match_exp s) s.
Proof.
  destruct s as [|e t]; simpl; [apply suffix_refl|].
  destruct ((e =? 101)%N || (e =? 69)%N); [|apply suffix_refl].
  destruct t as [|g u]; [apply suffix_refl|].
  destruct ((g =? chr_plus)%N || (g =? chr_minus)%N).
  - destruct u as [|c u']; [apply suffix_refl|].
    destruct (is_digit c); [|apply suffix_refl].
    pose proof (skip_digits_suffix u'). chain.
  - destruct (is_digit g); [|apply suffix_refl].
    pose proof (skip_digits_suffix u). chain.
Qed.

Lemma match_int_suffix s r : match_int s = Some r -> is_suffix r s.
Proof.
  destruct s as [|c t]; simpl; [discriminate|].
  intros H. repeat (break_hyp H; try discriminate); injection H as <-.
  - pose proof (match_exp_suffix (match_frac t)).
    pose proof (match_frac_suffix t). chain.
  - pose proof (match_exp_suffix (match_frac (skip_digits t))).
    pose proof (match_frac_suffix (skip_digits t)).
    pose proof (skip_digits_suffix t). chain.
Qed.

Lemma match_number_suffix s r : match_number s = Some r -> is_suffix r s.
Proof.
  destruct s as [|c t]; [discriminate|]. unfold match_number.
  destruct (c =? chr_minus)%N; intros H; apply match_int_suffix in H;
    chain.
Qed.

Lemma scan_atom_suffix s r : scan_atom s = Some r -> is_suffix r s.
Proof.
  unfold scan_atom, first_some. intros H.
  repeat (break_hyp H;
          [injection H as <-;
           first [ now apply match_number_suffix
                 | match goal with
                   | E : strip_prefix ?p _ = Some _ |- _ =>
                     apply strip_prefix_Some in E; subst s; now exists p
                   end ] |]).
  apply strip_prefix_Some in H; subst s. now eexists.
Qed.

Ltac suffix_facts :=
  repeat match goal with
  | E : skip_ws ?a = ?c :: ?b |- _ =>
    assert (is_suffix (c :: b) a) by (rewrite <- E; apply skip_ws_suffix);
    assert (is_suffix b a)
      by (apply (@suffix_tail c); rewrite <- E; apply skip_ws_suffix);
    clear E
  | E : scanstring _ _ = POk _ |- _ => apply scanstring_suffix in E
  | E : scan_atom _ = Some _ |- _ => apply scan_atom_suffix in E
  end;
  repeat match goal with
  | H : context [skip_ws ?a] |- _ =>
    lazymatch goal with
    | _ : is_suffix (skip_ws a) a |- _ => fail
    | _ => pose proof (skip_ws_suffix a)
    end
  end.

(** What a scanner leaves unread is the end of what it was given. *)
Lemma scan_suffix n :
  (forall s r, scan_once n s = Some (POk r) -> is_suffix r s)
  /\ (forall s r, JSONObject n s = Some (POk r) -> is_suffix r s)
  /\ (forall s r, JSONArray n s = Some (POk r) -> is_suffix r s).
Proof.
  induction n as [|n (IH1 & IH2 & IH3)].
  { repeat split; intros s r H; discriminate. }
  repeat split; intros s r H.
  - rewrite scan_once_S in H.
    repeat (break_hyp H; try discriminate);
      try (injection H as H; try subst r);
      try (apply IH2 in H); try (apply IH3 in H);
      suffix_facts; chain.
  - rewrite JSONObject_S in H.
    repeat (break_hyp H; try discriminate);
      try (injection H as H; try subst r);
      try (apply IH2 in H);
      repeat match goal with
             | E : scan_once n _ = Some (POk _) |- _ => apply IH1 in E
             end;
      suffix_facts; chain.
  - rewrite JSONArray_S in H.
    repeat (break_hyp H; try discriminate);
      try (injection H as H; try subst r);
      try (apply IH3 in H);
      repeat match goal with
             | E : scan_once n _ = Some (POk _) |- _ => apply IH1 in E
             end;
      suffix_facts; chain.
Qed.

End SuffixFacts.

Section ForwarderFacts.
Variable ep : nat -> http_outcome * Q.
Local Open Scope py_scope.

Ltac unfold_m :=
  unfold forward_to_function, forward_loop, requests_post, try_except, bind,
    time_sleep, logger, emit, elapse, ret, raise, get_self, set_self, time_time.

Lemma unreachable_inv start k :
  unreachable ep start (S k) ->
  fst (ep start) = NetworkFailure /\ unreachable ep (S start) k.
Proof.
  intros H. split.
  - specialize (H 0 ltac:(lia)). now rewrite Nat.add_0_r in H.
  - intros i Hi. specialize (H (S i) ltac:(lia)).
    now replace (S start + i) with (start + S i) by lia.
Qed.

Lemma forward_response g w k status :
  k < 3 -> unreachable ep (posts_made w) k ->
  fst (ep (posts_made w + k)) = Response status ->
  exists w', forward_to_function ep g w = Some (Ret (Some status), w')
    /\ trace w' = trace w ++ retry_trace g k
    /\ posts_made w' = posts_made w + S k
    /\ self w' = self w.
Proof.
  intros Hk Hu Hr. unfold_m. simpl.
  destruct k as [|k].
  { rewrite Nat.add_0_r in Hr.
    destruct (ep (posts_made w)) as [o d]. simpl in Hr; subst o. simpl.
    eexists; repeat split; simpl; lia. }
  apply unreachable_inv in Hu as [H0 Hu].
  destruct (ep (posts_made w)) as [o d]. simpl in H0; subst o. simpl.
  replace (posts_made w + S k) with (S (posts_made w) + k) in Hr by lia.
  destruct k as [|k].
  { rewrite Nat.add_0_r in Hr.
    destruct (ep (S (posts_made w))) as [o1 d1]. simpl in Hr; subst o1. simpl.
    eexists; repeat split; simpl; try lia.
    unfold retry_trace. simpl. now rewrite <- !app_assoc. }
  apply unreachable_inv in Hu as [H1 Hu].
  destruct (ep (S (posts_made w))) as [o1 d1]. simpl in H1; subst o1. simpl.
  replace (S (posts_made w) + S k) with (S (S (posts_made w)) + k) in Hr by lia.
  destruct k as [|k]; [|lia].
  rewrite Nat.add_0_r in Hr.
  destruct (ep (S (S (posts_made w)))) as [o2 d2]. simpl in Hr; subst o2. simpl.
  eexists; repeat split; simpl; try lia.
  unfold retry_trace. simpl. now rewrite <- !app_assoc.
Qed.

Lemma forward_unreachable g w :
  unreachable ep (posts_made w) 3 ->
  exists w', forward_to_function ep g w = Some (Raise RequestException, w')
    /\ trace w' = trace w ++ retry_trace g 2
    /\ posts_made w' = posts_made w + 3
    /\ self w' = self w.
Proof.
  intros Hu. unfold_m. simpl.
  apply unreachable_inv in Hu as [H0 Hu].
  destruct (ep (posts_made w)) as [o d]. simpl in H0; subst o. simpl.
  apply unreachable_inv in Hu as [H1 Hu].
  destruct (ep (S (posts_made w))) as [o1 d1]. simpl in H1; subst o1. simpl.
  apply unreachable_inv in Hu as [H2 Hu].
  destruct (ep (S (S (posts_made w)))) as [o2 d2]. simpl in H2; subst o2. simpl.
  eexists; repeat split; simpl; try lia.
  unfold retry_trace. simpl. now rewrite <- !app_assoc.
Qed.

(** Whatever the endpoint does. *)
Lemma forward_total g w :
  exists r w',
    forward_to_function ep g w = Some (r, w')
    /\ self w' = self w
    /\ exists t, trace w' = trace w ++ t /\ dispatched t = []
         /\ (posted t = [g] \/ posted t = [g; g] \/ posted t = [g; g; g])
         /\ posts_made w' = posts_made w + length (posted t).
Proof.
  unfold_m. simpl.
  repeat lazymatch goal with
  | |- context [ep ?n] => destruct (ep n) as [[?|  |[]] ?]; simpl
  end;
  (do 2 eexists; split; [reflexivity|]; split; [reflexivity|];
   eexists; split; [simpl; rewrite <- ?app_assoc; reflexivity|];
   simpl; repeat split; auto; lia).
Qed.

Lemma Qle_bool_false x y : Qle_bool x y = false <-> (y < x)%Q.
Proof.
  split.
  - intros H. apply Qnot_le_lt. intros Hle.
    apply Qle_bool_iff in Hle. congruence.
  - intros H. destruct (Qle_bool x y) eqn:E; auto.
    apply Qle_bool_iff in E. apply Qlt_not_le in H. contradiction.
Qed.

Lemma log_metrics_idle w :
  Qle_bool (metrics_interval (self w)) (now w - last_metrics_time (self w))
  = false ->
  log_metrics w = Some (Ret tt, w).
Proof.
  intros H. unfold log_metrics, bind, time_time, get_self. simpl.
  rewrite H. reflexivity.
Qed.

Lemma log_metrics_snapshot w :
  let elapsed := (now w - last_metrics_time (self w))%Q in
  Qle_bool (metrics_interval (self w)) elapsed = true ->
  Qeq_bool elapsed 0 = false ->
  log_metrics w =
  Some (Ret tt,
        world_with w
          (set_last_metrics_time (now w)
             (set_messages_failed 0 (set_messages_processed 0 (self w))))
          (trace w ++ snapshot_log (self w) elapsed)).
Proof.
  intros elapsed H1 H2. subst elapsed.
  unfold log_metrics, bind, time_time, get_self. simpl.
  rewrite H1, H2. unfold_m. simpl. unfold world_with, snapshot_log. simpl.
  rewrite <- !app_assoc. reflexivity.
Qed.

Lemma log_metrics_total w :
  exists r w', log_metrics w = Some (r, w')
    /\ same_connections w w'
    /\ posts_made w' = posts_made w
    /\ exists t, trace w' = trace w ++ t /\ dispatched t = []
                 /\ posted t = [].
Proof.
  destruct (Qle_bool (metrics_interval (self w))
              (now w - last_metrics_time (self w))) eqn:E1.
  - destruct (Qeq_bool (now w - last_metrics_time (self w)) 0) eqn:E2.
    + unfold log_metrics, bind, time_time, get_self. simpl.
      rewrite E1, E2. unfold_m. simpl.
      do 2 eexists; split; [reflexivity|]. repeat split.
      exists []. now rewrite app_nil_r.
    + rewrite (log_metrics_snapshot w E1 E2).
      do 2 eexists; split; [reflexivity|]. repeat split.
      eexists; split; [reflexivity|]. split; reflexivity.
  - rewrite (log_metrics_idle w E1).
    do 2 eexists; split; [reflexivity|]. repeat split.
    exists []. now rewrite app_nil_r.
Qed.

End ForwarderFacts.

Lemma same_connections_refl w : same_connections w w.
Proof. repeat split. Qed.

Lemma same_connections_trans w1 w2 w3 :
  same_connections w1 w2 -> same_connections w2 w3 -> same_connections w1 w3.
Proof.
  unfold same_connections. intros (A1 & A2 & A3) (B1 & B2 & B3).
  repeat split; congruence.
Qed.

Lemma dispatched_app a b : dispatched (a ++ b) = dispatched a ++ dispatched b.
Proof.
  induction a as [|e a IH]; simpl; auto. destruct e; simpl; congruence.
Qed.

Lemma posted_app a b : posted (a ++ b) = posted a ++ posted b.
Proof.
  induction a as [|e a IH]; simpl; auto. destruct e; simpl; congruence.
Qed.

Lemma quiet_nil : quiet [].
Proof. split; reflexivity. Qed.

Lemma quiet_app a b : quiet a -> quiet b -> quiet (a ++ b).
Proof.
  intros [A1 A2] [B1 B2]. split.
  - now rewrite dispatched_app, A1, B1.
  - now rewrite posted_app, A2, B2.
Qed.

Section Runs.

Variable I : list event -> Prop.
Hypothesis I_nil : I [].
Hypothesis I_app : forall a b, I a -> I b -> I (a ++ b).

Lemma runs_ret A (a : A) : runs I (ret a).
Proof.
  intros w. exists (Ret a), w, []. repeat split; auto.
  now rewrite app_nil_r.
Qed.

Lemma runs_raise A e : runs I (@raise A e).
Proof.
  intros w. exists (Raise e), w, []. repeat split; auto.
  now rewrite app_nil_r.
Qed.

Lemma runs_bind A B (c : M A) (k : A -> M B) :
  runs I c -> (forall a, runs I (k a)) -> runs I (bind c k).
Proof.
  intros Hc Hk w. unfold bind.
  destruct (Hc w) as (r & w1 & t1 & E1 & S1 & T1 & I1). rewrite E1.
  destruct r as [a|e].
  - destruct (Hk a w1) as (r2 & w2 & t2 & E2 & S2 & T2 & I2).
    exists r2, w2, (t1 ++ t2). repeat split; auto.
    + eapply same_connections_trans; eauto.
    + eapply same_connections_trans; eauto.
    + eapply same_connections_trans; eauto.
    + now rewrite T2, T1, app_assoc.
  - exists (Raise e), w1, t1. repeat split; auto; apply S1.
Qed.

Lemma runs_try A (c : M A) (h : exn -> M A) :
  runs I c -> (forall e, runs I (h e)) -> runs I (try_except c h).
Proof.
  intros Hc Hh w. unfold try_except.
  destruct (Hc w) as (r & w1 & t1 & E1 & S1 & T1 & I1). rewrite E1.
  destruct r as [a|e].
  - exists (Ret a), w1, t1. repeat split; auto; apply S1.
  - destruct (Hh e w1) as (r2 & w2 & t2 & E2 & S2 & T2 & I2).
    exists r2, w2, (t1 ++ t2). repeat split; auto.
    + eapply same_connections_trans; eauto.
    + eapply same_connections_trans; eauto.
    + eapply same_connections_trans; eauto.
    + now rewrite T2, T1, app_assoc.
Qed.

Lemma runs_get_self : runs I get_self.
Proof.
  intros w. exists (Ret (self w)), w, []. repeat split; auto.
  now rewrite app_nil_r.
Qed.

Lemma runs_time_time : runs I time_time.
Proof.
  intros w. exists (Ret (now w)), w, []. repeat split; auto.
  now rewrite app_nil_r.
Qed.

Lemma runs_elapse d : runs I (elapse d).
Proof.
  intros w. do 2 eexists. exists []. split; [reflexivity|].
  repeat split; auto. simpl. now rewrite app_nil_r.
Qed.

Lemma runs_set_self f :
  (forall s, connections_handled (f s) = connections_handled s
             /\ max_message_size (f s) = max_message_size s
             /\ metrics_interval (f s) = metrics_interval s) ->
  runs I (set_self f).
Proof.
  intros Hf w. do 2 eexists. exists []. split; [reflexivity|].
  repeat split; simpl; auto; try apply Hf. now rewrite app_nil_r.
Qed.

Lemma runs_emit e : I [e] -> runs I (emit e).
Proof.
  intros He w. do 2 eexists. exists [e]. split; [reflexivity|].
  repeat split; auto.
Qed.

End Runs.

Lemma runs_weaken A (I J : list event -> Prop) (c : M A) :
  (forall t, I t -> J t) -> runs I c -> runs J c.
Proof.
  intros HIJ Hc w. destruct (Hc w) as (r & w' & t & E & S & T & It).
  exists r, w', t. repeat split; auto; apply S.
Qed.

Create HintDb runs.
#[local] Hint Resolve quiet_nil quiet_app : runs.
#[local] Hint Resolve runs_ret runs_raise runs_get_self runs_time_time
  runs_elapse : runs.

Ltac runs_step :=
  first
    [ match goal with
      | |- runs _ (if ?b then _ else _) => destruct b
      | |- runs _ (match ?x with _ => _ end) => destruct x
      end
    | apply runs_bind; [auto with runs| |intros]
    | apply runs_try; [auto with runs| |intros]
    | apply runs_ret; auto with runs
    | apply runs_raise; auto with runs
    | apply runs_get_self; auto with runs
    | apply runs_time_time; auto with runs
    | apply runs_elapse; auto with runs
    | apply runs_set_self; [auto with runs|intros; repeat split]
    | apply runs_emit; split; reflexivity ].

Lemma quiet_log_metrics : runs quiet log_metrics.
Proof. unfold log_metrics, logger. repeat runs_step. Qed.

Lemma quiet_classify_response a : runs quiet (classify_response a).
Proof.
  unfold classify_response, logger, incr_failed, incr_processed.
  repeat runs_step.
Qed.

Lemma quiet_process_message_except e : runs quiet (process_message_except e).
Proof.
  unfold process_message_except, logger, incr_failed. repeat runs_step.
Qed.

Lemma process_message_except_returns e w :
  exists w', process_message_except e w = Some (Ret tt, w').
Proof. destruct e; eexists; reflexivity. Qed.

Section DispatcherFacts.

Variable ep : nat -> http_outcome * Q.

Lemma process_message_unparsable m w :
  Json.loads m <> Json.Parsed ->
  process_message ep m w =
  Some (Ret tt,
        world_with w
          (set_messages_failed (messages_failed (self w) + 1) (self w))
          (trace w ++ [Dispatch m])).
Proof.
  intros H. unfold process_message, py_json_loads.
  destruct (Json.loads m); [congruence| |]; reflexivity.
Qed.

Lemma process_message_total m w :
  exists w' t, process_message ep m w = Some (Ret tt, w')
    /\ same_connections w w'
    /\ trace w' = trace w ++ Dispatch m :: t /\ dispatched t = []
    /\ (Json.loads m = Json.Parsed ->
        posted t = [m] \/ posted t = [m; m] \/ posted t = [m; m; m]).
Proof.
  destruct (Json.loads m) eqn:E.
  2,3: rewrite process_message_unparsable by congruence;
    (eexists; exists []; split; [reflexivity|]; split; [repeat split|];
     repeat split; discriminate).
  unfold process_message, py_json_loads. rewrite E.
  unfold bind at 1. unfold emit at 1. cbv beta iota.
  set (w1 := {| self := self w; now := now w; posts_made := posts_made w;
                trace := trace w ++ [Dispatch m] |}).
  unfold try_except, bind at 1 2. unfold ret at 1. cbv beta iota.
  destruct (forward_total ep m w1) as (r & w2 & Ef & Hs & t & Ht & Hd & Hp & _).
  rewrite Ef.
  assert (S12 : same_connections w w2).
  { unfold same_connections. rewrite Hs. repeat split. }
  assert (T2 : trace w2 = trace w ++ Dispatch m :: t).
  { rewrite Ht. unfold w1; simpl. now rewrite <- app_assoc. }
  destruct r as [a|e].
  - destruct (@runs_bind quiet quiet_app _ _ _ _
               (quiet_classify_response a) (fun _ => quiet_log_metrics) w2)
      as (r3 & w3 & t3 & E3 & S3 & T3 & D3 & P3).
    rewrite E3. destruct r3 as [[]|e].
    + exists w3, (t ++ t3). split; [reflexivity|].
      split; [eapply same_connections_trans; eauto|].
      split; [rewrite T3, T2, <- app_assoc; reflexivity|].
      split; [now rewrite dispatched_app, Hd, D3|].
      intros _. now rewrite posted_app, P3, app_nil_r.
    + destruct (quiet_process_message_except e w3)
        as (r4 & w4 & t4 & E4 & S4 & T4 & D4 & P4).
      destruct (process_message_except_returns e w3) as (w4' & E4').
      rewrite E4 in E4'. injection E4' as -> <-. rewrite E4.
      exists w4, (t ++ t3 ++ t4). split; [reflexivity|].
      split; [eapply same_connections_trans; [|eauto];
              eapply same_connections_trans; eauto|].
      split; [rewrite T4, T3, T2, <- !app_assoc; reflexivity|].
      split; [now rewrite !dispatched_app, Hd, D3, D4|].
      intros _. now rewrite !posted_app, P3, P4, !app_nil_r.
  - destruct (quiet_process_message_except e w2)
      as (r4 & w4 & t4 & E4 & S4 & T4 & D4 & P4).
    destruct (process_message_except_returns e w2) as (w4' & E4').
    rewrite E4 in E4'. injection E4' as -> <-. rewrite E4.
    exists w4, (t ++ t4). split; [reflexivity|].
    split; [eapply same_connections_trans; eauto|].
    split; [rewrite T4, T2, <- !app_assoc; reflexivity|].
    split; [now rewrite !dispatched_app, Hd, D4|].
    intros _. now rewrite !posted_app, P4, !app_nil_r.
Qed.
End DispatcherFacts.

Section DecoderFacts.

Variable ep : nat -> http_outcome * Q.

Lemma runs_process_message m : runs any (process_message ep m).
Proof.
  intros w. destruct (process_message_total ep m w) as (w' & t & E & S & T & _).
  exists (Ret tt), w', (Dispatch m :: t). repeat split; auto; apply S.
Qed.

Lemma find_brace_lt buffer i : find_brace buffer = Some i -> i < length buffer.
Proof.
  revert i; induction buffer as [|c t IH]; intros i; simpl; [discriminate|].
  destruct (c =? chr_lbrace)%N.
  - intros H; injection H as <-; lia.
  - destruct (find_brace t); [|discriminate].
    intros H; injection H as <-. specialize (IH _ eq_refl). lia.
Qed.

Lemma find_brace_None buffer :
  find_brace buffer = None <-> ~ In chr_lbrace buffer.
Proof.
  induction buffer as [|c t IH]; simpl; [tauto|].
  destruct (N.eqb_spec c chr_lbrace) as [->|Hc].
  - split; [discriminate|]. intros H; exfalso; apply H; now left.
  - destruct (find_brace t); simpl.
    + split; [discriminate|]. intros H. exfalso.
      assert (H' : ~ In chr_lbrace t) by (intros X; apply H; now right).
      apply IH in H'. discriminate.
    + split; auto. intros _ [X|X]; [congruence|]. now apply IH in X.
Qed.

Lemma drain_S n buffer :
  drain ep (S n) buffer =
  match find_brace buffer with
  | None => ret []
  | Some start =>
    match Json.loads (skipn start buffer) with
    | Json.Parsed =>
      bind (process_message ep (skipn start buffer)) (fun _ => ret [])
    | Json.ExtraData pos =>
      bind (process_message ep (firstn pos (skipn start buffer)))
           (fun _ => drain ep n (skipn (start + pos) buffer))
    | Json.Failed _ => ret buffer
    end
  end.
Proof. reflexivity. Qed.

(** The inner loop ends: a fuel above the length of the buffer is never
    exhausted. *)
Lemma runs_drain n buffer :
  length buffer < n -> runs any (drain ep n buffer).
Proof.
  revert buffer; induction n as [|n IH]; intros buffer Hl; [lia|].
  rewrite drain_S.
  destruct (find_brace buffer) as [start|] eqn:Ef;
    [|now apply runs_ret].
  destruct (Json.loads (skipn start buffer)) as [|pos|m] eqn:El.
  - apply runs_bind; [easy|apply runs_process_message|].
    intros _; now apply runs_ret.
  - apply runs_bind; [easy|apply runs_process_message|].
    intros _. apply IH.
    apply JsonFacts.loads_extra_pos in El.
    rewrite length_skipn in *. lia.
  - now apply runs_ret.
Qed.

Lemma runs_decode data : runs any (bytes_decode data).
Proof.
  unfold bytes_decode. destruct (Utf8.decode data);
    [now apply runs_ret|now apply runs_raise].
Qed.

Lemma runs_feed buffer data : runs any (feed ep buffer data).
Proof.
  unfold feed. apply runs_bind; [easy|apply runs_decode|].
  intros d. apply runs_drain. lia.
Qed.

Lemma runs_read_loop socket buffer : runs any (read_loop ep socket buffer).
Proof.
  revert buffer; induction socket as [|[data|] rest IH]; intros buffer; simpl.
  - now apply runs_ret.
  - destruct data as [|b data']; [now apply runs_ret|].
    apply runs_bind; [easy| |].
    + apply runs_try; [easy| |].
      * apply runs_bind; [easy|apply runs_feed|].
        intros; now apply runs_ret.
      * intros e. apply runs_bind; [easy|now apply runs_emit|].
        intros; now apply runs_ret.
    + intros [b'|]; [apply IH|now apply runs_ret].
  - now apply runs_emit.
Qed.

Lemma handle_client_total socket w :
  exists r w',
    handle_client ep socket w = Some (r, w')
    /\ connections_handled (self w') = (connections_handled (self w) + 1)%Z.
Proof.
  unfold handle_client.
  unfold bind at 1, get_self at 1. cbv beta iota.
  unfold bind at 1, set_self at 1. cbv beta iota.
  set (w1 := {| self := _ |}).
  unfold bind.
  destruct (runs_read_loop socket [] w1) as (r & w2 & t & E & S & _).
  rewrite E. destruct r as [[]|e].
  - do 2 eexists; split; [reflexivity|]. simpl.
    destruct S as (-> & _). reflexivity.
  - do 2 eexists; split; [reflexivity|].
    destruct S as (-> & _). reflexivity.
Qed.

End DecoderFacts.

Section RecordFacts.
Import Json JsonFacts SuffixFacts.

(** A parsed text that starts with a brace and ends with one is read as
    one object up to its last character. *)
Lemma loads_closed_record t :
  loads (chr_lbrace :: t) = Parsed ->
  last (chr_lbrace :: t) 0%N = chr_rbrace ->
  scan_once (fuel_for (chr_lbrace :: t)) (chr_lbrace :: t) = Some (POk []).
Proof.
  intros H Hl. rewrite loads_object in H.
  destruct (scan_once _ _) as [[r|m]|] eqn:E; try discriminate.
  destruct (skip_ws r) eqn:Er; [clear H|discriminate].
  do 2 f_equal.
  destruct r as [|c r1]; [reflexivity|]. exfalso.
  destruct (@exists_last _ (c :: r1)) as (r0 & a & Ea); [discriminate|].
  rewrite Ea in *. clear Ea.
  apply scan_suffix in E as [o Eo].
  rewrite Eo, app_assoc, last_last in Hl. subst a.
  apply skip_ws_nil_all_ws in Er.
  rewrite forallb_app in Er. apply andb_true_iff in Er as [_ Er].
  discriminate.
Qed.

Lemma decode_nonempty data d :
  data <> [] -> Utf8.decode data = Some d -> d <> [].
Proof.
  destruct data as [|b0 t0]; [congruence|]. intros _ H ->.
  simpl in H. cbv zeta in H. unfold option_map in H.
  repeat (break_hyp H; try discriminate).
Qed.

Variable ep : nat -> http_outcome * Q.

Lemma feed_no_brace buffer data d w :
  Utf8.decode data = Some d ->
  find_brace (buffer ++ d) = None ->
  feed ep buffer data w = Some (Ret [], w).
Proof.
  intros Hd Hf. unfold feed, bytes_decode, bind. rewrite Hd. unfold ret at 1.
  rewrite drain_S, Hf. reflexivity.
Qed.

Lemma feed_incomplete buffer data d start m w :
  Utf8.decode data = Some d ->
  find_brace (buffer ++ d) = Some start ->
  loads (skipn start (buffer ++ d)) = Failed m ->
  feed ep buffer data w = Some (Ret (buffer ++ d), w).
Proof.
  intros Hd Hf Hl. unfold feed, bytes_decode, bind. rewrite Hd. unfold ret at 1.
  rewrite drain_S, Hf, Hl. reflexivity.
Qed.

Lemma feed_complete buffer data d start w :
  Utf8.decode data = Some d ->
  find_brace (buffer ++ d) = Some start ->
  loads (skipn start (buffer ++ d)) = Parsed ->
  feed ep buffer data w =
  bind (process_message ep (skipn start (buffer ++ d))) (fun _ => ret []) w.
Proof.
  intros Hd Hf Hl. unfold feed, bytes_decode. unfold bind at 1. rewrite Hd.
  unfold ret at 1. rewrite drain_S, Hf, Hl. reflexivity.
Qed.

Lemma read_loop_step data rest buffer w b' w' :
  data <> [] ->
  feed ep buffer data w = Some (Ret b', w') ->
  read_loop ep (RecvData data :: rest) buffer w = read_loop ep rest b' w'.
Proof.
  intros Hd Hf. destruct data as [|b data']; [congruence|].
  simpl. unfold bind, try_except. rewrite Hf. reflexivity.
Qed.

(** A record that arrives in pieces, each piece valid UTF-8 on its own:
    the read loop dispatches it once, whole, when its last piece has
    come. *)
Lemma read_loop_record t chunks ds :
  scan_once (fuel_for (chr_lbrace :: t)) (chr_lbrace :: t) = Some (POk []) ->
  Forall2 (fun c d => c <> [] /\ Utf8.decode c = Some d) chunks ds ->
  forall buffer w,
    buffer ++ concat ds = chr_lbrace :: t ->
    chunks <> [] ->
    exists w' t',
      read_loop ep (map RecvData chunks) buffer w = Some (Ret tt, w')
      /\ same_connections w w'
      /\ trace w' = trace w ++ Dispatch (chr_lbrace :: t) :: t'
      /\ dispatched t' = []
      /\ (posted t' = [chr_lbrace :: t]
          \/ posted t' = [chr_lbrace :: t; chr_lbrace :: t]
          \/ posted t' = [chr_lbrace :: t; chr_lbrace :: t; chr_lbrace :: t]).
Proof.
  intros Hs HF. induction HF as [|c d chunks' ds' [Hc Hd] HF IH];
    intros buffer w Hb Hne; [congruence|]. clear Hne.
  assert (Hdn : d <> []) by now apply (@decode_nonempty c d Hc).
  assert (Hp : loads (chr_lbrace :: t) = Parsed).
  { rewrite loads_object, Hs. reflexivity. }
  simpl in Hb. rewrite app_assoc in Hb.
  assert (Hf : find_brace (buffer ++ d) = Some 0).
  { destruct (buffer ++ d) as [|c0 u] eqn:E.
    - apply app_eq_nil in E as [_ E]. congruence.
    - injection Hb as -> _. reflexivity. }
  simpl map. destruct HF as [|c2 d2 chunks2 ds2 [Hc2 Hd2] HF].
  - simpl in Hb. rewrite app_nil_r in Hb. simpl map.
    destruct (process_message_total ep (chr_lbrace :: t) w)
      as (w1 & t1 & E1 & S1 & T1 & D1 & P1).
    rewrite (@read_loop_step c [] buffer w [] w1); auto.
    + simpl. exists w1, t1. repeat split; auto; apply S1.
    + rewrite (@feed_complete buffer c d 0 w Hd Hf);
        simpl skipn; rewrite Hb; auto.
      unfold bind. rewrite E1. reflexivity.
  - assert (Hx : concat (d2 :: ds2) <> []).
    { simpl. intros E. apply app_eq_nil in E as [E _].
      now apply (@decode_nonempty c2 d2 Hc2 Hd2). }
    assert (Hbd : buffer ++ d <> []).
    { intros E. apply app_eq_nil in E as [_ E]. congruence. }
    destruct (@loads_proper_prefix t _ _ Hs (eq_sym Hb) Hbd Hx) as [m Hm].
    rewrite (@read_loop_step c _ buffer w (buffer ++ d) w); auto.
    + apply IH; [exact Hb|discriminate].
    + now apply (@feed_incomplete buffer c d 0 m w Hd Hf).
Qed.

End RecordFacts.

(** ** Further facts about the decoder and the dispatcher *)

Lemma drain_extra (ep : nat -> http_outcome * Q) n buffer pos :
  find_brace buffer = Some 0 ->
  Json.loads buffer = Json.ExtraData pos ->
  drain ep (S n) buffer =
  bind (process_message ep (firstn pos buffer))
       (fun _ => drain ep n (skipn pos buffer)).
Proof. intros Hf Hl. rewrite drain_S, Hf. simpl skipn. now rewrite Hl. Qed.

Lemma drain_parsed (ep : nat -> http_outcome * Q) n buffer :
  find_brace buffer = Some 0 ->
  Json.loads buffer = Json.Parsed ->
  drain ep (S n) buffer =
  bind (process_message ep buffer) (fun _ => ret []).
Proof. intros Hf Hl. rewrite drain_S, Hf. simpl skipn. now rewrite Hl. Qed.

Lemma status_ok_iff status_code :
  status_ok status_code = true
  <-> (status_code = 200 \/ status_code = 201 \/ status_code = 202)%Z.
Proof.
  unfold status_ok. rewrite !orb_true_iff, !Z.eqb_eq. tauto.
Qed.

Lemma process_message_unreachable (ep : nat -> http_outcome * Q) g w :
  Json.loads g = Json.Parsed ->
  unreachable ep (posts_made w) 3 ->
  exists w',
    process_message ep g w = Some (Ret tt, w')
    /\ trace w' = trace w ++ Dispatch g :: retry_trace g 2
                  ++ [Log (ErrorInProcessMessage RequestException)]
    /\ messages_failed (self w') = (messages_failed (self w) + 1)%Z
    /\ messages_processed (self w') = messages_processed (self w).
Proof.
  intros Hp Hu. unfold process_message, py_json_loads. rewrite Hp.
  unfold bind at 1. unfold emit at 1. cbv beta iota.
  set (w1 := {| self := self w; now := now w; posts_made := posts_made w;
                trace := trace w ++ [Dispatch g] |}).
  unfold try_except, bind at 1 2. unfold ret at 1. cbv beta iota.
  destruct (@forward_unreachable ep g w1 Hu) as (w2 & E & T & _ & S).
  rewrite E. eexists. split; [reflexivity|]. simpl.
  rewrite T, S. unfold w1; simpl. rewrite <- !app_assoc.
  repeat split.
Qed.

Lemma failure_rate_ratio p f :
  (0 < p + f)%Z ->
  (failure_rate p f == inject_Z f / inject_Z (p + f) * 100)%Q.
Proof.
  intros H. unfold failure_rate.
  apply Z.ltb_lt in H. rewrite H. reflexivity.
Qed.

(** * The claims of the specification *)

(** C1, where the code fails.  With [max_message_size] set to 8, a chunk of
    38 characters that opens a record and does not close it is kept whole
    in the buffer, and when the rest of the record comes the record, 40
    characters long, is dispatched and forwarded: the limit is stored by
    [__init__] and read nowhere. *)
Theorem max_message_size_is_not_enforced :
  let part1 := json_text "{'short_message':'aaaaaaaaaaaaaaaaaaaa" in
  let part2 := json_text "'}" in
  max_message_size (self world_limit8) = 8%Z
  /\ feed always_ok [] (bytes_of part1) world_limit8
     = Some (Ret part1, world_limit8)
  /\ (max_message_size (self world_limit8) < Z.of_nat (length part1))%Z
  /\ exists w',
       feed always_ok part1 (bytes_of part2) world_limit8 = Some (Ret [], w')
       /\ dispatched (trace w') = [part1 ++ part2]
       /\ posted (trace w') = [part1 ++ part2]
       /\ (max_message_size (self w') < Z.of_nat (length (part1 ++ part2)))%Z.
Proof.
  cbv zeta. split; [reflexivity|]. split; [vm_compute; reflexivity|].
  split; [reflexivity|].
  eexists. split; [vm_compute; reflexivity|].
  split; [reflexivity|]. split; reflexivity.
Qed.

(** What holds of a record that comes in pieces.  A parsed record that starts with its opening
    brace and ends with its closing one, received in any number of
    non-empty chunks each of which is valid UTF-8 on its own: the handler
    dispatches the record once, whole, makes one to three requests for it
    and closes the connection when the socket has nothing left. *)
Theorem chunked_record_is_dispatched_once
    (ep : nat -> http_outcome * Q) (record : str)
    (chunks : list (list byte)) (decoded : list str) (w : World) :
  Json.loads record = Json.Parsed ->
  hd_error record = Some chr_lbrace ->
  last record 0%N = chr_rbrace ->
  Forall2 (fun c d => c <> [] /\ Utf8.decode c = Some d) chunks decoded ->
  concat decoded = record ->
  exists w' t,
    handle_client ep (map RecvData chunks) w = Some (Ret tt, w')
    /\ trace w' = trace w ++ Dispatch record :: t ++ [Close]
    /\ dispatched t = []
    /\ (posted t = [record] \/ posted t = [record; record]
        \/ posted t = [record; record; record]).
Proof.
  intros Hp Hh Hl HF Hc.
  destruct record as [|c0 t0]; [discriminate|]. injection Hh as ->.
  pose proof (@loads_closed_record t0 Hp Hl) as Hs.
  assert (Hne : chunks <> []).
  { intros ->. inversion HF; subst. discriminate. }
  unfold handle_client.
  unfold bind at 1, get_self at 1. cbv beta iota.
  unfold bind at 1, set_self at 1. cbv beta iota.
  set (w1 := {| self := _ |}).
  destruct (@read_loop_record ep t0 chunks decoded Hs HF [] w1 Hc Hne)
    as (w2 & t2 & E & _ & T & D & P).
  unfold bind. rewrite E. unfold emit.
  eexists. exists t2. split; [reflexivity|]. simpl.
  rewrite T. unfold w1; simpl. rewrite <- app_assoc. simpl.
  repeat split; auto.
Qed.

Lemma chunked_record_is_dispatched_once_witness :
  Json.loads (json_text "{'a':1}") = Json.Parsed
  /\ exists w' t,
       handle_client always_ok
         (map RecvData [bytes_of (json_text "{'a"); bytes_of (json_text "':");
                        bytes_of (json_text "1}")]) world0
       = Some (Ret tt, w')
       /\ trace w'
          = trace world0 ++ Dispatch (json_text "{'a':1}") :: t ++ [Close]
       /\ dispatched t = []
       /\ (posted t = [json_text "{'a':1}"]
           \/ posted t = [json_text "{'a':1}"; json_text "{'a':1}"]
           \/ posted t = [json_text "{'a':1}"; json_text "{'a':1}";
                          json_text "{'a':1}"]).
Proof.
  assert (H1 : Json.loads (json_text "{'a':1}") = Json.Parsed)
    by (vm_compute; reflexivity).
  split; [exact H1|].
  apply (@chunked_record_is_dispatched_once always_ok (json_text "{'a':1}")
           [bytes_of (json_text "{'a"); bytes_of (json_text "':");
            bytes_of (json_text "1}")]
           [json_text "{'a"; json_text "':"; json_text "1}"] world0 H1);
    try reflexivity.
  repeat constructor; discriminate.
Defined.

(** C2, where the code fails.  The record [{"a":"é"}] is valid UTF-8 and
    parses, and sent in one chunk it is dispatched.  Sent in two chunks
    that split the two bytes of its [é], it is never dispatched: the first
    chunk does not decode, the handler logs the error and closes the
    connection. *)
Theorem split_character_loses_record :
  Utf8.decode record_e_acute = Some text_e_acute
  /\ Json.loads text_e_acute = Json.Parsed
  /\ chunk_e_acute_1 ++ chunk_e_acute_2 = record_e_acute
  /\ (exists w',
         handle_client always_ok [RecvData record_e_acute] world0
         = Some (Ret tt, w')
         /\ dispatched (trace w') = [text_e_acute])
  /\ (exists w',
         handle_client always_ok
           [RecvData chunk_e_acute_1; RecvData chunk_e_acute_2] world0
         = Some (Ret tt, w')
         /\ trace w' = [Log (ErrorHandlingClient UnicodeDecodeError); Close]
         /\ dispatched (trace w') = []).
Proof.
  split; [reflexivity|]. split; [vm_compute; reflexivity|].
  split; [reflexivity|]. split.
  - eexists. split; [vm_compute; reflexivity|reflexivity].
  - eexists. split; [vm_compute; reflexivity|]. split; reflexivity.
Qed.






(** The scenario of the specification, run: the bytes of
    [{"a":1}{"b":2}] in one chunk on a fresh connection, the endpoint
    answering 200. *)
Example handle_client_two_records :
  exists w',
    handle_client always_ok [RecvData (bytes_of (json_text "{'a':1}{'b':2}"))]
      world0 = Some (Ret tt, w')
    /\ trace w' = [Dispatch (json_text "{'a':1}"); Post (json_text "{'a':1}");
                   Dispatch (json_text "{'b':2}"); Post (json_text "{'b':2}");
                   Close]
    /\ messages_processed (self w') = 2%Z
    /\ connections_handled (self w') = 1%Z.
Proof. eexists. split; [vm_compute; reflexivity|]. repeat split. Qed.

(** C5.  The forwarder makes one to three requests per record and no more.
    A response, whatever its status, ends the forward at the attempt that
    got it: after [k] network failures ([k] below 3) the trace is the
    requests and the sleeps of 1, then 2, between them, and the response is
    returned.  The dispatcher counts a status of 200, 201 or 202 as
    processed, and any other status as failed, logging the status.  Three
    network failures make [forward_to_function] raise to its caller after
    its sleeps of 1 and 2; the dispatcher logs the exception and counts the
    record as failed. *)
Theorem forward_retry_policy
    (ep : nat -> http_outcome * Q) (gelf_data : str) (w : World) :
  (exists r w' t,
      forward_to_function ep gelf_data w = Some (r, w')
      /\ trace w' = trace w ++ t
      /\ 1 <= length (posted t) <= 3
      /\ posts_made w' = posts_made w + length (posted t))
  /\ (forall k status_code,
         k < 3 ->
         unreachable ep (posts_made w) k ->
         fst (ep (posts_made w + k)) = Response status_code ->
         exists w',
           forward_to_function ep gelf_data w
           = Some (Ret (Some status_code), w')
           /\ trace w' = trace w ++ retry_trace gelf_data k
           /\ posts_made w' = posts_made w + S k)
  /\ (unreachable ep (posts_made w) 3 ->
      exists w',
        forward_to_function ep gelf_data w = Some (Raise RequestException, w')
        /\ trace w' = trace w ++ retry_trace gelf_data 2
        /\ posts_made w' = posts_made w + 3)
  /\ retry_trace gelf_data 2
     = [Post gelf_data; Sleep 1; Post gelf_data; Sleep 2; Post gelf_data]
  /\ (forall status_code,
         (status_code = 200 \/ status_code = 201 \/ status_code = 202)%Z ->
         classify_response (Some status_code) w
         = Some (Ret tt,
                 world_with w
                   (set_messages_processed (messages_processed (self w) + 1)
                      (self w))
                   (trace w)))
  /\ (forall status_code,
         ~ (status_code = 200 \/ status_code = 201 \/ status_code = 202)%Z ->
         classify_response (Some status_code) w
         = Some (Ret tt,
                 world_with w
                   (set_messages_failed (messages_failed (self w) + 1)
                      (self w))
                   (trace w ++ [Log (ErrorForwardingHTTP status_code)])))
  /\ (Json.loads gelf_data = Json.Parsed ->
      unreachable ep (posts_made w) 3 ->
      exists w',
        process_message ep gelf_data w = Some (Ret tt, w')
        /\ trace w' = trace w ++ Dispatch gelf_data :: retry_trace gelf_data 2
                      ++ [Log (ErrorInProcessMessage RequestException)]
        /\ messages_failed (self w') = (messages_failed (self w) + 1)%Z
        /\ messages_processed (self w') = messages_processed (self w)).
Proof.
  split.
  { destruct (forward_total ep gelf_data w)
      as (r & w' & E & _ & t & T & _ & P & N).
    exists r, w', t. repeat split; auto;
      destruct P as [P|[P|P]]; rewrite P; simpl; lia. }
  split.
  { intros k st Hk Hu Hr.
    destruct (@forward_response ep gelf_data w k st Hk Hu Hr)
      as (w' & E & T & N & _).
    now exists w'. }
  split.
  { intros Hu.
    destruct (@forward_unreachable ep gelf_data w Hu) as (w' & E & T & N & _).
    now exists w'. }
  split; [reflexivity|].
  split.
  { intros st Hs. apply status_ok_iff in Hs.
    unfold classify_response, bind, ret. rewrite Hs. reflexivity. }
  split.
  { intros st Hs. rewrite <- status_ok_iff in Hs.
    apply not_true_is_false in Hs.
    unfold classify_response, bind, ret. rewrite Hs. reflexivity. }
  apply process_message_unreachable.
Qed.

Lemma forward_retry_policy_witness :
  (* a server that answers 200: delivered at the first attempt *)
  (exists w',
      forward_to_function always_ok (json_text "{'a':1}") world0
      = Some (Ret (Some 200%Z), w')
      /\ trace w' = trace world0 ++ retry_trace (json_text "{'a':1}") 0
      /\ posts_made w' = posts_made world0 + 1)
  (* a server that answers 400: rejected at the first attempt *)
  /\ (exists w',
         forward_to_function always_400 (json_text "{'a':1}") world0
         = Some (Ret (Some 400%Z), w')
         /\ trace w' = trace world0 ++ retry_trace (json_text "{'a':1}") 0
         /\ posts_made w' = posts_made world0 + 1)
  (* a server reached at the third attempt *)
  /\ (exists w',
         forward_to_function third_time_ok (json_text "{'a':1}") world0
         = Some (Ret (Some 202%Z), w')
         /\ trace w' = trace world0 ++ retry_trace (json_text "{'a':1}") 2
         /\ posts_made w' = posts_made world0 + 3)
  (* a server that no request reaches *)
  /\ (exists w',
         forward_to_function refusing (json_text "{'a':1}") world0
         = Some (Raise RequestException, w')
         /\ trace w' = trace world0 ++ retry_trace (json_text "{'a':1}") 2
         /\ posts_made w' = posts_made world0 + 3)
  /\ (exists w',
         process_message refusing (json_text "{'a':1}") world0
         = Some (Ret tt, w')
         /\ trace w' = trace world0
                       ++ Dispatch (json_text "{'a':1}")
                          :: retry_trace (json_text "{'a':1}") 2
                       ++ [Log (ErrorInProcessMessage RequestException)]
         /\ messages_failed (self w') = (messages_failed (self world0) + 1)%Z
         /\ messages_processed (self w') = messages_processed (self world0)).
Proof.
  assert (U0 : forall ep, unreachable ep (posts_made world0) 0)
    by (intros ep i Hi; lia).
  assert (U2 : unreachable third_time_ok (posts_made world0) 2).
  { intros i Hi. destruct i as [|[|i]]; [reflexivity|reflexivity|lia]. }
  assert (U3 : unreachable refusing (posts_made world0) 3)
    by (intros i Hi; reflexivity).
  assert (P : Json.loads (json_text "{'a':1}") = Json.Parsed)
    by (vm_compute; reflexivity).
  split.
  { apply (proj1 (proj2 (forward_retry_policy always_ok
                           (json_text "{'a':1}") world0)) 0 200%Z);
      [lia|apply U0|reflexivity]. }
  split.
  { apply (proj1 (proj2 (forward_retry_policy always_400
                           (json_text "{'a':1}") world0)) 0 400%Z);
      [lia|apply U0|reflexivity]. }
  split.
  { apply (proj1 (proj2 (forward_retry_policy third_time_ok
                           (json_text "{'a':1}") world0)) 2 202%Z);
      [lia|apply U2|reflexivity]. }
  split.
  { apply (proj1 (proj2 (proj2 (forward_retry_policy refusing
                                  (json_text "{'a':1}") world0))) U3). }
  apply (proj2 (proj2 (proj2 (proj2 (proj2 (proj2
           (forward_retry_policy refusing (json_text "{'a':1}") world0)))))) P U3).
Defined.

(** C6.  When the buffer, with the chunk just decoded added, holds no
    opening brace, the decoder discards the whole buffer and dispatches
    nothing: the world is left as it was. *)
Theorem feed_without_brace_discards_buffer
    (ep : nat -> http_outcome * Q) (buffer : str) (data : list byte)
    (decoded_data : str) (w : World) :
  Utf8.decode data = Some decoded_data ->
  ~ In chr_lbrace (buffer ++ decoded_data) ->
  feed ep buffer data w = Some (Ret [], w).
Proof.
  intros Hd Hn. apply (@feed_no_brace ep buffer data decoded_data w Hd).
  now apply find_brace_None.
Qed.

Lemma feed_without_brace_discards_buffer_witness :
  Utf8.decode (bytes_of (lit "and more noise")) = Some (lit "and more noise")
  /\ ~ In chr_lbrace (lit "noise " ++ lit "and more noise")
  /\ feed always_ok (lit "noise ") (bytes_of (lit "and more noise")) world0
     = Some (Ret [], world0).
Proof.
  assert (H1 : Utf8.decode (bytes_of (lit "and more noise"))
               = Some (lit "and more noise")) by (vm_compute; reflexivity).
  assert (H2 : ~ In chr_lbrace (lit "noise " ++ lit "and more noise"))
    by (vm_compute; intuition discriminate).
  split; [exact H1|]. split; [exact H2|].
  exact (@feed_without_brace_discards_buffer always_ok (lit "noise ")
           (bytes_of (lit "and more noise")) (lit "and more noise") world0
           H1 H2).
Defined.

(** C7.  A raw string that [json.loads] rejects: the dispatcher adds one to
    the failed counter and returns normally, so no exception reaches the
    read loop of the connection; it makes no request, and the trace gains
    the call itself and nothing else (no request, no log line, no close). *)
Theorem process_message_counts_unparsable_as_failed
    (ep : nat -> http_outcome * Q) (raw : str) (w : World) :
  Json.loads raw <> Json.Parsed ->
  process_message ep raw w =
  Some (Ret tt,
        {| self := set_messages_failed (messages_failed (self w) + 1) (self w);
           now := now w;
           posts_made := posts_made w;
           trace := trace w ++ [Dispatch raw] |}).
Proof. apply process_message_unparsable. Qed.

Lemma process_message_counts_unparsable_as_failed_witness :
  Json.loads (json_text "{'a':1,}") <> Json.Parsed
  /\ process_message always_ok (json_text "{'a':1,}") world0 =
     Some (Ret tt,
           {| self := set_messages_failed
                        (messages_failed (self world0) + 1) (self world0);
              now := now world0;
              posts_made := posts_made world0;
              trace := trace world0 ++ [Dispatch (json_text "{'a':1,}")] |}).
Proof.
  assert (H : Json.loads (json_text "{'a':1,}") <> Json.Parsed)
    by (vm_compute; discriminate).
  split; [exact H|].
  exact (@process_message_counts_unparsable_as_failed always_ok
           (json_text "{'a':1,}") world0 H).
Defined.



(** The report of the specification's scenario: 8 processed, 2 failed. *)
Example log_metrics_8_2 :
  exists w',
    log_metrics world_8_2 = Some (Ret tt, w')
    /\ In (Log (TotalProcessed 8)) (trace w')
    /\ In (Log (TotalFailed 2)) (trace w')
    /\ (exists v, In (Log (FailureRate v)) (trace w')
                  /\ format_2f v = "20.00"%string)
    /\ log_metrics w' = Some (Ret tt, w').
Proof.
  eexists. split; [vm_compute; reflexivity|].
  split; [simpl; tauto|]. split; [simpl; tauto|].
  split; [eexists; split; [simpl; do 4 right; left; reflexivity|reflexivity]|].
  vm_compute. reflexivity.
Qed.

(** C9.  A chunk that is not valid UTF-8 on its own, as each half of a
    character split between two chunks is: [data.decode] raises, the read
    loop logs the error and ends without reading what the socket still
    holds, and the handler closes the connection; the buffer, a local
    variable of the handler, is lost with whatever partial record it held.
    The bytes are not kept for a later chunk to complete. *)
Theorem undecodable_chunk_ends_connection
    (ep : nat -> http_outcome * Q) (data : list byte)
    (rest : list recv_event) (buffer : str) (w : World) :
  data <> [] ->
  Utf8.decode data = None ->
  read_loop ep (RecvData data :: rest) buffer w
  = Some (Ret tt,
          world_with w (self w)
            (trace w ++ [Log (ErrorHandlingClient UnicodeDecodeError)]))
  /\ handle_client ep (RecvData data :: rest) w
     = Some (Ret tt,
             world_with w
               (set_connections_handled (connections_handled (self w) + 1)
                  (self w))
               (trace w
                ++ [Log (ErrorHandlingClient UnicodeDecodeError); Close])).
Proof.
  intros Hne Hd.
  assert (R : forall b v,
             read_loop ep (RecvData data :: rest) b v
             = Some (Ret tt,
                     world_with v (self v)
                       (trace v
                        ++ [Log (ErrorHandlingClient UnicodeDecodeError)]))).
  { intros b v. destruct data as [|b0 data']; [congruence|].
    simpl read_loop. unfold feed, bytes_decode. rewrite Hd. reflexivity. }
  split; [apply R|].
  unfold handle_client.
  unfold bind at 1, get_self at 1. cbv beta iota.
  unfold bind at 1, set_self at 1. cbv beta iota.
  unfold bind at 1. rewrite R. unfold emit, world_with. simpl.
  now rewrite <- app_assoc.
Qed.

Lemma undecodable_chunk_ends_connection_witness :
  chunk_e_acute_1 <> []
  /\ Utf8.decode chunk_e_acute_1 = None
  /\ Utf8.decode chunk_e_acute_2 = None
  /\ Utf8.decode (chunk_e_acute_1 ++ chunk_e_acute_2) = Some text_e_acute
  /\ read_loop always_ok
       (RecvData chunk_e_acute_1 :: [RecvData chunk_e_acute_2]) [] world0
     = Some (Ret tt,
             world_with world0 (self world0)
               (trace world0
                ++ [Log (ErrorHandlingClient UnicodeDecodeError)]))
  /\ handle_client always_ok
       (RecvData chunk_e_acute_1 :: [RecvData chunk_e_acute_2]) world0
     = Some (Ret tt,
             world_with world0
               (set_connections_handled
                  (connections_handled (self world0) + 1) (self world0))
               (trace world0
                ++ [Log (ErrorHandlingClient UnicodeDecodeError); Close])).
Proof.
  assert (H1 : chunk_e_acute_1 <> []) by discriminate.
  assert (H2 : Utf8.decode chunk_e_acute_1 = None) by reflexivity.
  split; [exact H1|]. split; [exact H2|].
  split; [reflexivity|]. split; [reflexivity|].
  exact (@undecodable_chunk_ends_connection always_ok chunk_e_acute_1
           [RecvData chunk_e_acute_2] [] world0 H1 H2).
Defined.


(** * Further properties of the code *)

Section StreamFacts.
Import Json JsonFacts.
Variable ep : nat -> http_outcome * Q.

Lemma find_brace_after_noise noise t :
  ~ In chr_lbrace noise ->
  find_brace (noise ++ chr_lbrace :: t) = Some (length noise).
Proof.
  induction noise as [|c u IH]; intros H; simpl.
  - reflexivity.
  - destruct (N.eqb_spec c chr_lbrace) as [->|_].
    + exfalso. apply H. now left.
    + rewrite IH; [reflexivity|]. intros X. apply H. now right.
Qed.

Lemma skipn_app_length A (a b : list A) : skipn (length a) (a ++ b) = b.
Proof. induction a; simpl; auto. Qed.

Lemma firstn_app_length A (a b : list A) : firstn (length a) (a ++ b) = a.
Proof. induction a; simpl; congruence. Qed.

Lemma skipn_add_app A (a b : list A) k :
  skipn (length a + k) (a ++ b) = skipn k b.
Proof. induction a; simpl; auto. Qed.

Lemma leading_ws_split s : s = leading_ws s ++ skip_ws s.
Proof.
  induction s as [|c t IH]; simpl; [reflexivity|].
  destruct (is_ws c); simpl; [now f_equal|reflexivity].
Qed.

Lemma leading_ws_length s :
  length s - length (skip_ws s) = length (leading_ws s).
Proof.
  rewrite (leading_ws_split s) at 1. rewrite length_app. lia.
Qed.

Lemma leading_ws_all s : skip_ws s = [] -> leading_ws s = s.
Proof.
  intros H. rewrite (leading_ws_split s) at 2. now rewrite H, app_nil_r.
Qed.

(** White space in front of text that is empty or starts a record. *)
Lemma leading_ws_app s x :
  skip_ws x = x -> leading_ws (s ++ x) = leading_ws s
                   /\ skip_ws (s ++ x) = skip_ws s ++ x.
Proof.
  intros Hx. induction s as [|c t [IH1 IH2]]; simpl.
  - split; [|exact Hx]. destruct x as [|a u]; [reflexivity|].
    simpl in *. destruct (is_ws a) eqn:E; [|reflexivity].
    exfalso. pose proof (skip_ws_length u) as L. rewrite Hx in L.
    simpl in L. lia.
  - destruct (is_ws c); [|split; reflexivity].
    split; [now f_equal|exact IH2].
Qed.

(** A parsed object followed by white space only still parses. *)
Lemma loads_ws_tail t x :
  loads (chr_lbrace :: t) = Parsed ->
  skip_ws x = [] ->
  loads ((chr_lbrace :: t) ++ x) = Parsed.
Proof.
  intros H Hx. rewrite loads_object in H.
  destruct (scan_once _ _) as [[r|m]|] eqn:E; try discriminate.
  destruct (skip_ws r) eqn:Er; [clear H|discriminate].
  rewrite <- app_comm_cons, loads_object.
  apply scan_object_app with (x := x) in E.
  apply (scan_once_mono _ (fuel_for_app (chr_lbrace :: t) x)) in E.
  simpl app in E. rewrite E.
  rewrite skip_ws_all_ws by now apply skip_ws_nil_all_ws.
  now rewrite Hx.
Qed.

(** A parsed object followed by text that does not start with white
    space: [Extra data] right after the object. *)
Lemma loads_then t y c u :
  loads (chr_lbrace :: t) = Parsed ->
  y = c :: u -> is_ws c = false ->
  loads ((chr_lbrace :: t) ++ y) = ExtraData (length (chr_lbrace :: t)).
Proof.
  intros Hp -> Hc. rewrite loads_concat; auto.
  - rewrite skip_ws_not_ws by assumption. f_equal. lia.
  - rewrite skip_ws_not_ws by assumption. discriminate.
Qed.

Lemma record_ok_cons r :
  record_ok r -> exists t, r = chr_lbrace :: t /\ loads r = Parsed.
Proof.
  intros [Hh Hp]. destruct r as [|c t]; [discriminate|].
  injection Hh as ->. now exists t.
Qed.

Lemma frames_text_nil frames :
  Forall (fun f => record_ok (fst f)) frames ->
  frames_text frames = [] -> frames = [].
Proof.
  intros HF. destruct HF as [|[r sep] fs H _]; auto.
  destruct (record_ok_cons H) as (t & E & _). simpl in E. subst r.
  discriminate.
Qed.

(** The text of frames is empty or starts with a brace. *)
Lemma frames_text_head frames :
  Forall (fun f => record_ok (fst f)) frames ->
  skip_ws (frames_text frames) = frames_text frames.
Proof.
  intros HF. destruct HF as [|[r sep] fs H _]; [reflexivity|].
  destruct (record_ok_cons H) as (t & E & _). simpl in E. subst r.
  reflexivity.
Qed.

Lemma skip_ws_no_brace s : ~ In chr_lbrace s -> ~ In chr_lbrace (skip_ws s).
Proof.
  intros H X. apply H. rewrite (leading_ws_split s).
  apply in_or_app. now right.
Qed.

(** The inner loop on noise without a brace followed by whole records,
    each with its delimiter: it dispatches the records in order, each
    with the white space that follows it, and leaves nothing. *)
Lemma drain_frames frames :
  Forall (fun f => record_ok (fst f) /\ ~ In chr_lbrace (snd f)) frames ->
  forall n noise w,
    ~ In chr_lbrace noise ->
    length (noise ++ frames_text frames) < n ->
    exists w' t,
      drain ep n (noise ++ frames_text frames) w = Some (Ret [], w')
      /\ same_connections w w'
      /\ trace w' = trace w ++ t
      /\ dispatched t = map (fun f => fst f ++ leading_ws (snd f)) frames.
Proof.
  induction 1 as [|[r sep] fs [Hr Hs] HF IH]; intros n noise w Hn Hl.
  - destruct n as [|n]; [lia|]. change (frames_text []) with (@nil N).
    rewrite app_nil_r, drain_S.
    destruct (find_brace noise) eqn:E.
    + exfalso. assert (X : find_brace noise = None)
        by now apply find_brace_None. congruence.
    + exists w, []. repeat split. now rewrite app_nil_r.
  - destruct n as [|n]; [lia|].
    destruct (record_ok_cons Hr) as (t & Er & Hp). simpl in Er, Hp. subst r.
    simpl fst in *. simpl snd in *.
    assert (HF' : Forall (fun f => record_ok (fst f)) fs).
    { eapply Forall_impl; [|exact HF]. now intros a [X _]. }
    change (frames_text ((chr_lbrace :: t, sep) :: fs))
      with (((chr_lbrace :: t) ++ sep) ++ frames_text fs) in *.
    rewrite <- app_assoc in *.
    destruct (@leading_ws_app sep _ (frames_text_head HF')) as [Lw Sw].
    remember (sep ++ frames_text fs) as y eqn:Ey.
    rewrite drain_S.
    change ((chr_lbrace :: t) ++ y) with (chr_lbrace :: (t ++ y)).
    rewrite (@find_brace_after_noise noise (t ++ y) Hn), skipn_app_length.
    change (chr_lbrace :: (t ++ y)) with ((chr_lbrace :: t) ++ y).
    simpl map. simpl fst. simpl snd.
    destruct (skip_ws y) as [|c u] eqn:Ew.
    + (* white space only after the record: the buffer parses *)
      symmetry in Sw. apply app_eq_nil in Sw as [Ss Ef].
      apply (@frames_text_nil fs HF') in Ef. subst fs.
      change (frames_text []) with (@nil N) in Ey.
      rewrite app_nil_r in Ey. subst y.
      rewrite (@loads_ws_tail t sep Hp Ss).
      destruct (process_message_total ep ((chr_lbrace :: t) ++ sep) w)
        as (w1 & t1 & E1 & S1 & T1 & D1 & _).
      unfold bind. rewrite E1.
      exists w1, (Dispatch ((chr_lbrace :: t) ++ sep) :: t1).
      repeat split; auto; try apply S1. simpl.
      now rewrite D1, (leading_ws_all _ Ss).
    + assert (Hy : skip_ws y <> []) by (rewrite Ew; discriminate).
      rewrite (@loads_concat t y Hp Hy), leading_ws_length, Lw.
      assert (Hl' : length (skip_ws sep ++ frames_text fs) < n).
      { rewrite <- Sw, <- Ew. pose proof (skip_ws_length y).
        rewrite !length_app in Hl. simpl in Hl. lia. }
      pose proof (leading_ws_split y) as Ys. rewrite Ew, Lw in Ys.
      clear Ey Hl Lw Ew Hy. subst y.
      rewrite !skipn_add_app, skipn_app_length.
      rewrite app_assoc, <- length_app, firstn_app_length.
      rewrite Sw.
      destruct (process_message_total ep
                  ((chr_lbrace :: t) ++ leading_ws sep) w)
        as (w1 & t1 & E1 & S1 & T1 & D1 & _).
      unfold bind. rewrite E1.
      destruct (IH n (skip_ws sep) w1 (@skip_ws_no_brace _ Hs) Hl')
        as (w2 & t2 & E2 & S2 & T2 & D2).
      rewrite E2.
      exists w2, (Dispatch ((chr_lbrace :: t) ++ leading_ws sep) :: t1 ++ t2).
      split; [reflexivity|].
      split; [eapply same_connections_trans; eauto|].
      split.
      * rewrite T2, T1, <- app_assoc. reflexivity.
      * simpl. now rewrite dispatched_app, D1, D2.
Qed.

End StreamFacts.

Section StreamFacts2.
Import Json JsonFacts.
Variable ep : nat -> http_outcome * Q.

Lemma closed_record_cons r :
  closed_record r ->
  exists t, r = chr_lbrace :: t
            /\ loads r = Parsed
            /\ scan_once (fuel_for r) r = Some (POk []).
Proof.
  intros (Hh & Hl & Hp). destruct r as [|c t]; [discriminate|].
  injection Hh as ->. exists t. repeat split; auto.
  now apply loads_closed_record.
Qed.

Lemma partial_of_brace p rs c u :
  Forall closed_record rs -> partial_of p rs -> p = c :: u ->
  c = chr_lbrace.
Proof.
  intros HF [->|(r & rs' & q & -> & Er & Hq)] Hp; [discriminate|].
  inversion HF as [|? ? Hr _]; subst.
  destruct (closed_record_cons Hr) as (t & E & _).
  simpl in E. now injection E as ->.
Qed.

Lemma partial_of_fails p rs :
  Forall closed_record rs -> partial_of p rs -> p <> [] ->
  find_brace p = Some 0 /\ exists m, loads p = Failed m.
Proof.
  intros HF Hp Hne. destruct p as [|c u]; [congruence|].
  pose proof (partial_of_brace HF Hp eq_refl) as ->.
  split; [reflexivity|].
  destruct Hp as [X|(r & rs' & q & -> & Er & Hq)]; [discriminate|].
  inversion HF as [|? ? Hr _]; subst.
  destruct (closed_record_cons Hr) as (t & E & _ & Hs).
  rewrite E in Hs.
  apply (@loads_proper_prefix t (chr_lbrace :: u) q Hs); auto.
Qed.

(** The inner loop on whole records followed by the beginning of the
    next: it dispatches the records in order and keeps the beginning. *)
Lemma drain_stream rs1 :
  Forall closed_record rs1 ->
  forall rs2 p n w,
    Forall closed_record rs2 -> partial_of p rs2 ->
    length (concat rs1 ++ p) < n ->
    exists w' t,
      drain ep n (concat rs1 ++ p) w = Some (Ret p, w')
      /\ same_connections w w'
      /\ trace w' = trace w ++ t
      /\ dispatched t = rs1.
Proof.
  induction 1 as [|r rs1 Hr HF IH]; intros rs2 p n w H2 Hp Hl.
  - destruct n as [|n]; [lia|]. simpl app. rewrite drain_S.
    destruct p as [|c u].
    + exists w, []. repeat split. now rewrite app_nil_r.
    + destruct (partial_of_fails H2 Hp) as (Hf & m & Hm); [discriminate|].
      rewrite Hf. cbv beta iota. rewrite skipn_O, Hm.
      exists w, []. repeat split. now rewrite app_nil_r.
  - destruct n as [|n]; [lia|].
    destruct (closed_record_cons Hr) as (t & -> & Hpr & _).
    set (x := concat (_ :: rs1) ++ p) in *.
    assert (Ea : x = (chr_lbrace :: t) ++ (concat rs1 ++ p))
      by (subst x; simpl; now rewrite app_assoc).
    clearbody x. subst x.
    remember (concat rs1 ++ p) as y eqn:Ey.
    rewrite drain_S.
    change (find_brace ((chr_lbrace :: t) ++ y)) with (Some 0).
    cbv beta iota. rewrite ?skipn_O.
    destruct (process_message_total ep (chr_lbrace :: t) w)
      as (w1 & t1 & E1 & S1 & T1 & D1 & _).
    destruct y as [|c u].
    + symmetry in Ey. apply app_eq_nil in Ey as [Ec ->].
      assert (rs1 = []) as ->.
      { destruct rs1 as [|r' rs1']; [reflexivity|].
        inversion HF as [|? ? Hr' _]; subst.
        destruct (closed_record_cons Hr') as (t' & -> & _). discriminate. }
      rewrite app_nil_r, Hpr. unfold bind. rewrite E1.
      exists w1, (Dispatch (chr_lbrace :: t) :: t1).
      repeat split; auto; try apply S1. simpl. now rewrite D1.
    + assert (Hc : c = chr_lbrace).
      { destruct rs1 as [|r' rs1'].
        - simpl in Ey. symmetry in Ey.
          exact (partial_of_brace H2 Hp Ey).
        - inversion HF as [|? ? Hr' _]; subst.
          destruct (closed_record_cons Hr') as (t' & -> & _).
          simpl in Ey. now injection Ey as ->. }
      subst c.
      rewrite (@loads_then t (chr_lbrace :: u) chr_lbrace u Hpr eq_refl
                 eq_refl).
      rewrite firstn_app_length.
      change (0 + length (chr_lbrace :: t)) with (length (chr_lbrace :: t)).
      rewrite skipn_app_length.
      unfold bind. rewrite E1. rewrite Ey.
      assert (Hl' : length (concat rs1 ++ p) < n).
      { rewrite <- Ey. simpl in Hl. rewrite length_app in Hl.
        simpl in Hl. simpl. lia. }
      destruct (IH rs2 p n w1 H2 Hp Hl') as (w2 & t2 & E2 & S2 & T2 & D2).
      rewrite E2.
      exists w2, (Dispatch (chr_lbrace :: t) :: t1 ++ t2).
      split; [reflexivity|].
      split; [eapply same_connections_trans; eauto|].
      split.
      * rewrite T2, T1, <- app_assoc. reflexivity.
      * simpl. now rewrite dispatched_app, D1, D2.
Qed.

(** Where a cut falls in a stream of records. *)
Lemma split_stream rs :
  Forall closed_record rs ->
  forall x z,
    x ++ z = concat rs ->
    exists rs1 rs2 p,
      rs = rs1 ++ rs2 /\ x = concat rs1 ++ p /\ partial_of p rs2.
Proof.
  induction 1 as [|r rs Hr HF IH]; intros x z E.
  - simpl in E. apply app_eq_nil in E as [-> _].
    exists [], [], []. repeat split. now left.
  - simpl in E. apply app_eq_app in E as [l [[E1 E2]|[E1 E2]]].
    + (* the cut is after [r] *)
      destruct (IH l z (eq_sym E2)) as (rs1 & rs2 & p & -> & -> & Hp).
      exists (r :: rs1), rs2, p. subst x. simpl.
      rewrite app_assoc. auto.
    + (* the cut is inside [r] *)
      destruct l as [|c l'].
      * rewrite app_nil_r in E1. subst x. simpl in E2.
        destruct (IH [] z E2) as (rs1 & rs2 & p & -> & Ex & Hp).
        symmetry in Ex. apply app_eq_nil in Ex as [Ec ->].
        exists (r :: rs1), rs2, []. simpl. rewrite Ec, !app_nil_r.
        repeat split. now left.
      * exists [], (r :: rs), x. repeat split.
        right. exists r, rs, (c :: l'). repeat split; auto. discriminate.
Qed.

(** The read loop on a stream of whole records, cut into chunks at any
    places between characters. *)
Lemma read_loop_stream chunks ds :
  Forall2 (fun c d => c <> [] /\ Utf8.decode c = Some d) chunks ds ->
  forall rs b w,
    Forall closed_record rs ->
    b ++ concat ds = concat rs ->
    partial_of b rs ->
    exists w' t,
      read_loop ep (map RecvData chunks) b w = Some (Ret tt, w')
      /\ same_connections w w'
      /\ trace w' = trace w ++ t
      /\ dispatched t = rs.
Proof.
  induction 1 as [|c d chunks ds [Hc Hd] HF IH]; intros rs b w Hrs Hb Hp.
  - simpl in *. rewrite app_nil_r in Hb.
    assert (rs = []) as ->.
    { destruct Hp as [->|(r & rs' & q & -> & Er & Hq)].
      - destruct rs as [|r rs']; [reflexivity|].
        inversion Hrs as [|? ? Hr _]; subst.
        destruct (closed_record_cons Hr) as (t & -> & _). discriminate.
      - exfalso. simpl in Hb. subst r.
        apply (f_equal (@length N)) in Hb. rewrite !length_app in Hb.
        destruct q; [congruence|]. simpl in Hb. lia. }
    exists w, []. repeat split; auto. now rewrite app_nil_r.
  - simpl concat in Hb. rewrite app_assoc in Hb.
    destruct (split_stream Hrs _ _ Hb) as (rs1 & rs2 & p & -> & Ex & Hp2).
    apply Forall_app in Hrs as [H1 H2].
    assert (Hl : length (concat rs1 ++ p) < S (length (concat rs1 ++ p)))
      by lia.
    destruct (@drain_stream rs1 H1 rs2 p _ w H2 Hp2 Hl)
      as (w1 & t1 & E1 & S1 & T1 & D1).
    assert (Hfeed : feed ep b c w = Some (Ret p, w1)).
    { unfold feed, bytes_decode. unfold bind at 1. rewrite Hd.
      unfold ret at 1. rewrite Ex. exact E1. }
    simpl map. rewrite (@read_loop_step ep c _ b w p w1 Hc Hfeed).
    assert (Hb2 : p ++ concat ds = concat rs2).
    { rewrite Ex, concat_app, <- app_assoc in Hb.
      now apply app_inv_head in Hb. }
    destruct (IH rs2 p w1 H2 Hb2 Hp2) as (w2 & t2 & E2 & S2 & T2 & D2).
    exists w2, (t1 ++ t2). split; [exact E2|].
    split; [eapply same_connections_trans; eauto|].
    split; [rewrite T2, T1, <- app_assoc; reflexivity|].
    now rewrite dispatched_app, D1, D2.
Qed.

End StreamFacts2.

Module FrameFacts.
Import Json JsonFacts.

Lemma ends_value_frac y : ends_value y = true -> ends_frac y = true.
Proof.
  destruct y as [|c t]; simpl; auto.
  intros H. repeat (apply andb_true_iff in H as [H ?]).
  now apply andb_true_iff.
Qed.

Lemma ends_frac_digits y : ends_frac y = true -> ends_digits y = true.
Proof.
  destruct y as [|c t]; simpl; auto.
  intros H. now apply andb_true_iff in H as [H _].
Qed.

Lemma ends_value_ws c t : is_ws c = true -> ends_value (c :: t) = true.
Proof.
  unfold is_ws. intros H.
  repeat (apply orb_true_iff in H as [H|H]);
    apply N.eqb_eq in H; subst c; reflexivity.
Qed.

(** The rest before a delimiter, with the white space in front of it. *)
Lemma ends_value_skip_ws z c t :
  skip_ws z = c :: t -> ends_value (c :: t) = true -> ends_value z = true.
Proof.
  destruct z as [|a z']; [discriminate|]. simpl skip_ws.
  destruct (is_ws a) eqn:E.
  - intros _ _. now apply ends_value_ws.
  - intros H; injection H as -> ->. auto.
Qed.

Lemma ws_frame s c r :
  skip_ws s = c :: r ->
  exists w, s = w ++ c :: r /\ forall z, skip_ws (w ++ c :: z) = c :: z.
Proof.
  intros H. destruct (skip_ws_split s) as (w & E & F). rewrite H in E.
  exists w. split; [exact E|]. intros z.
  rewrite skip_ws_all_ws by exact F.
  apply skip_ws_not_ws. now apply skip_ws_head in H.
Qed.

Lemma ws_frame_end s :
  skip_ws s = [] -> ends_value s = true /\ forall z, skip_ws (s ++ z) = skip_ws z.
Proof.
  intros H. split.
  - destruct s as [|a t]; [reflexivity|]. simpl in H.
    destruct (is_ws a) eqn:E; [|discriminate]. now apply ends_value_ws.
  - intros z. apply skip_ws_all_ws. now apply skip_ws_nil_all_ws.
Qed.

Lemma scanstring_frame st s r :
  scanstring st s = POk r ->
  exists o, s = o ++ r /\ forall y, scanstring st (o ++ y) = POk y.
Proof.
  revert st; induction s as [|c t IH]; intros st H; simpl in H.
  - destruct st; discriminate.
  - destruct st; repeat (break_hyp H; try discriminate);
      try (injection H as <-; exists [c]; split; [reflexivity|];
           intros y; simpl;
           repeat match goal with E : _ = _ |- _ => rewrite E end;
           reflexivity);
      (apply IH in H as (o & -> & F); exists (c :: o);
       split; [reflexivity|]; intros y; simpl;
       repeat match goal with E : _ = _ |- _ => rewrite E end;
       apply F).
Qed.

Lemma skip_digits_end y : ends_digits y = true -> skip_digits y = y.
Proof.
  destruct y as [|c t]; simpl; auto.
  intros H. apply negb_true_iff in H. now rewrite H.
Qed.

Lemma skip_digits_frame s :
  exists o, s = o ++ skip_digits s
    /\ forall y, ends_digits y = true -> skip_digits (o ++ y) = y.
Proof.
  induction s as [|c t (o & E & F)]; simpl.
  - exists []. split; [reflexivity|]. apply skip_digits_end.
  - destruct (is_digit c) eqn:Ec.
    + exists (c :: o). split; [simpl; now rewrite <- E|].
      intros y Hy. simpl. rewrite Ec. now apply F.
    + exists []. split; [reflexivity|]. apply skip_digits_end.
Qed.

Lemma match_frac_end z : ends_frac z = true -> match_frac z = z.
Proof.
  destruct z as [|a [|b t]]; simpl; auto.
  intros H. apply andb_true_iff in H as [_ H].
  apply negb_true_iff in H. now rewrite H.
Qed.

Lemma match_frac_frame s :
  exists o, s = o ++ match_frac s
    /\ forall z, ends_frac z = true ->
         match_frac (o ++ z) = z /\ ends_digits (o ++ z) = true.
Proof.
  assert (No : exists o, s = o ++ s
    /\ forall z, ends_frac z = true ->
         match_frac (o ++ z) = z /\ ends_digits (o ++ z) = true).
  { exists []. split; [reflexivity|]. intros z Hz.
    split; [now apply match_frac_end|now apply ends_frac_digits]. }
  destruct s as [|d [|c t]]; try exact No.
  unfold match_frac.
  destruct ((d =? chr_dot)%N && is_digit c) eqn:E; [|exact No].
  destruct (skip_digits_frame t) as (o & Eo & F).
  exists (d :: c :: o). split; [simpl; now rewrite <- Eo|].
  intros z Hz. simpl app. unfold match_frac. rewrite E.
  split; [apply F; now apply ends_frac_digits|].
  apply andb_true_iff in E as [E _]. apply N.eqb_eq in E; subst d.
  reflexivity.
Qed.

Lemma match_exp_end y : ends_value y = true -> match_exp y = y.
Proof.
  destruct y as [|e t]; simpl; auto.
  intros H. apply andb_true_iff in H as [H H2].
  apply andb_true_iff in H as [_ H1].
  apply negb_true_iff in H1, H2. now rewrite H1, H2.
Qed.

Lemma match_exp_frame s :
  exists o, s = o ++ match_exp s
    /\ forall y, ends_value y = true ->
         match_exp (o ++ y) = y /\ ends_frac (o ++ y) = true.
Proof.
  assert (No : exists o, s = o ++ s
    /\ forall y, ends_value y = true ->
         match_exp (o ++ y) = y /\ ends_frac (o ++ y) = true).
  { exists []. split; [reflexivity|]. intros y Hy.
    split; [now apply match_exp_end|now apply ends_value_frac]. }
  destruct s as [|e t]; [exact No|].
  unfold match_exp.
  destruct ((e =? 101)%N || (e =? 69)%N) eqn:Ee; [|exact No].
  assert (He : forall u, ends_frac (e :: u) = true).
  { intros u. apply orb_true_iff in Ee as [H|H];
      apply N.eqb_eq in H; subst e; reflexivity. }
  destruct t as [|g u]; [exact No|].
  destruct ((g =? chr_plus)%N || (g =? chr_minus)%N) eqn:Eg.
  - destruct u as [|c u']; [exact No|].
    destruct (is_digit c) eqn:Ec; [|exact No].
    destruct (skip_digits_frame u') as (o & Eo & F).
    exists (e :: g :: c :: o). split; [simpl; now rewrite <- Eo|].
    intros y Hy. simpl app. unfold match_exp. rewrite Ee, Eg, ?Ec.
    split; [|apply He].
    apply F. now apply ends_frac_digits, ends_value_frac.
  - destruct (is_digit g) eqn:Ec; [|exact No].
    destruct (skip_digits_frame u) as (o & Eo & F).
    exists (e :: g :: o). split; [simpl; now rewrite <- Eo|].
    intros y Hy. simpl app. unfold match_exp. rewrite Ee, Eg, ?Ec.
    split; [|apply He].
    apply F. now apply ends_frac_digits, ends_value_frac.
Qed.

Lemma match_int_frame s r :
  match_int s = Some r ->
  exists c o, s = (c :: o) ++ r
    /\ forall y, ends_value y = true -> match_int ((c :: o) ++ y) = Some y.
Proof.
  destruct s as [|c t]; [discriminate|]. unfold match_int.
  destruct (c =? chr_zero)%N eqn:E0.
  - intros H; injection H as <-.
    destruct (match_frac_frame t) as (o1 & E1 & F1).
    destruct (match_exp_frame (match_frac t)) as (o2 & E2 & F2).
    exists c, (o1 ++ o2). split.
    { simpl. rewrite <- app_assoc, <- E2, <- E1. reflexivity. }
    intros y Hy. simpl app. unfold match_int. rewrite E0, <- app_assoc.
    destruct (F2 y Hy) as [X2 Y2]. destruct (F1 _ Y2) as [X1 _].
    now rewrite X1, X2.
  - destruct (is_digit c) eqn:Ec; [|discriminate].
    intros H; injection H as <-.
    destruct (skip_digits_frame t) as (o0 & E0' & F0).
    destruct (match_frac_frame (skip_digits t)) as (o1 & E1 & F1).
    destruct (match_exp_frame (match_frac (skip_digits t)))
      as (o2 & E2 & F2).
    exists c, (o0 ++ o1 ++ o2). split.
    { simpl. rewrite <- !app_assoc, <- E2, <- E1, <- E0'. reflexivity. }
    intros y Hy. simpl app. unfold match_int. rewrite E0, Ec, <- !app_assoc.
    destruct (F2 y Hy) as [X2 Y2]. destruct (F1 _ Y2) as [X1 Y1].
    now rewrite (F0 _ Y1), X1, X2.
Qed.

Lemma match_number_frame s r :
  match_number s = Some r ->
  exists c o, s = (c :: o) ++ r /\ (c <= 57)%N
    /\ forall y, ends_value y = true ->
         match_number ((c :: o) ++ y) = Some y.
Proof.
  intros H. destruct (match_number_head _ H) as (c & t & -> & Hc).
  unfold match_number in H.
  destruct (c =? chr_minus)%N eqn:Em.
  - apply match_int_frame in H as (c1 & o & -> & F).
    exists c, (c1 :: o). split; [reflexivity|]. split; [exact Hc|].
    intros y Hy. simpl app. unfold match_number. rewrite Em.
    apply (F y Hy).
  - apply match_int_frame in H as (c1 & o & E & F).
    injection E as <- ->.
    exists c, o. split; [reflexivity|]. split; [exact Hc|].
    intros y Hy. simpl app. unfold match_number. rewrite Em.
    apply (F y Hy).
Qed.

Lemma scan_atom_frame s r :
  scan_atom s = Some r ->
  exists c o, s = (c :: o) ++ r
    /\ forall y, ends_value y = true ->
         scan_atom ((c :: o) ++ y) = Some y.
Proof.
  unfold scan_atom at 1, first_some. intros H.
  destruct (strip_prefix (lit "null") s) eqn:E1.
  { injection H as <-. apply strip_prefix_Some in E1; subst s.
    do 2 eexists. split; [reflexivity|]. reflexivity. }
  destruct (strip_prefix (lit "true") s) eqn:E2.
  { injection H as <-. apply strip_prefix_Some in E2; subst s.
    do 2 eexists. split; [reflexivity|]. reflexivity. }
  destruct (strip_prefix (lit "false") s) eqn:E3.
  { injection H as <-. apply strip_prefix_Some in E3; subst s.
    do 2 eexists. split; [reflexivity|]. reflexivity. }
  destruct (match_number s) eqn:E4.
  { injection H as <-.
    destruct (match_number_frame _ E4) as (c & o & -> & Hc & F).
    exists c, o. split; [reflexivity|]. intros y Hy.
    unfold scan_atom, first_some.
    assert (Hn : forall a, (57 < a)%N -> (c =? a)%N = false).
    { intros a Ha. apply N.eqb_neq. lia. }
    change (lit "null") with [110; 117; 108; 108]%N.
    change (lit "true") with [116; 114; 117; 101]%N.
    change (lit "false") with [102; 97; 108; 115; 101]%N.
    simpl strip_prefix. rewrite !Hn by lia.
    now rewrite (F y Hy). }
  destruct (strip_prefix (lit "NaN") s) eqn:E5.
  { injection H as <-. apply strip_prefix_Some in E5; subst s.
    do 2 eexists. split; [reflexivity|]. reflexivity. }
  destruct (strip_prefix (lit "Infinity") s) eqn:E6.
  { injection H as <-. apply strip_prefix_Some in E6; subst s.
    do 2 eexists. split; [reflexivity|]. reflexivity. }
  apply strip_prefix_Some in H; subst s.
  do 2 eexists. split; [reflexivity|]. reflexivity.
Qed.

Ltac norm := repeat (progress (rewrite <- ?app_assoc; simpl app)).

(** What a scanner has read does not depend on what follows: the text it
    consumed, followed by any rest at which a value can end, is read the
    same way and up to that rest. *)
Lemma scan_frame n :
  (forall s r, scan_once n s = Some (POk r) ->
     exists c o, s = c :: o ++ r
       /\ forall y, ends_value y = true ->
            scan_once n (c :: o ++ y) = Some (POk y))
  /\ (forall s r, JSONObject n s = Some (POk r) ->
        exists o, s = o ++ r
          /\ forall y, JSONObject n (o ++ y) = Some (POk y))
  /\ (forall s r, JSONArray n s = Some (POk r) ->
        exists c o, s = c :: o ++ r
          /\ forall y, JSONArray n (c :: o ++ y) = Some (POk y)).
Proof.
  induction n as [|n (IH1 & IH2 & IH3)].
  { repeat split; intros; discriminate. }
  repeat split.
  - intros s r H. rewrite scan_once_S in H.
    destruct s as [|c t]; [discriminate|].
    destruct (c =? chr_dquote)%N eqn:Eq.
    { injection H as H. apply scanstring_frame in H as (o & -> & F).
      exists c, o. split; [reflexivity|]. intros y _.
      rewrite scan_once_S, Eq. now rewrite F. }
    destruct (c =? chr_lbrace)%N eqn:Eb.
    { destruct (skip_ws t) as [|c1 t1] eqn:Ew; [discriminate|].
      apply ws_frame in Ew as (w & -> & W).
      destruct (c1 =? chr_rbrace)%N eqn:E1.
      - injection H as ->. exists c, (w ++ [c1]).
        split; [now norm|]. intros y _. norm.
        now rewrite scan_once_S, Eq, Eb, W, E1.
      - destruct (c1 =? chr_dquote)%N eqn:E2; [|discriminate].
        apply IH2 in H as (o & -> & F).
        exists c, (w ++ c1 :: o). split; [now norm|]. intros y _. norm.
        rewrite scan_once_S, Eq, Eb, W, E1, E2. apply F. }
    destruct (c =? chr_lbracket)%N eqn:Ek.
    { destruct (skip_ws t) as [|c1 t1] eqn:Ew;
        [now apply JSONArray_nil in H|].
      apply ws_frame in Ew as (w & -> & W).
      destruct (c1 =? chr_rbracket)%N eqn:E1.
      - injection H as ->. exists c, (w ++ [c1]).
        split; [now norm|]. intros y _. norm.
        now rewrite scan_once_S, Eq, Eb, Ek, W, E1.
      - apply IH3 in H as (c2 & o & E & F). injection E as <- ->.
        exists c, (w ++ c1 :: o). split; [now norm|]. intros y _. norm.
        rewrite scan_once_S, Eq, Eb, Ek, W, E1. apply F. }
    destruct (scan_atom (c :: t)) as [r'|] eqn:Ea; [|discriminate].
    injection H as ->.
    apply scan_atom_frame in Ea as (c' & o & E & F).
    simpl app in E. injection E as <- ->.
    exists c, o. split; [reflexivity|]. intros y Hy.
    rewrite scan_once_S, Eq, Eb, Ek.
    specialize (F y Hy). simpl app in F. now rewrite F.
  - intros s r H. rewrite JSONObject_S in H.
    destruct (scanstring SNormal s) as [r0|] eqn:E0; [|discriminate].
    apply scanstring_frame in E0 as (o0 & -> & F0).
    destruct (skip_ws r0) as [|c0 r1] eqn:Ew0; [discriminate|].
    apply ws_frame in Ew0 as (w0 & -> & W0).
    destruct (c0 =? chr_colon)%N eqn:Ec; [|discriminate].
    destruct (skip_ws r1) as [|c1 v] eqn:Ew1.
    { destruct n; [discriminate|]. rewrite scan_once_S in H. discriminate. }
    apply ws_frame in Ew1 as (w1 & -> & W1).
    destruct (scan_once n (c1 :: v)) as [[r2|]|] eqn:Ev; try discriminate.
    apply IH1 in Ev as (c1' & o2 & E & F2). injection E as <- ->.
    destruct (skip_ws r2) as [|c2 r3] eqn:Ew2; [discriminate|].
    pose proof Ew2 as Hc2.
    apply ws_frame in Ew2 as (w2 & -> & W2).
    assert (V : forall z, ends_value (c2 :: z) = true ->
                          ends_value (w2 ++ c2 :: z) = true).
    { intros z Hz. eapply ends_value_skip_ws; [apply W2|exact Hz]. }
    destruct (c2 =? chr_rbrace)%N eqn:E2.
    + injection H as ->.
      exists (o0 ++ w0 ++ c0 :: w1 ++ c1 :: o2 ++ w2 ++ [c2]).
      split; [now norm|]. intros y. norm.
      rewrite JSONObject_S, F0, W0, Ec, W1.
      rewrite F2, W2, E2; [reflexivity|].
      apply V. apply N.eqb_eq in E2; subst c2. reflexivity.
    + destruct (c2 =? chr_comma)%N eqn:E3; [|discriminate].
      destruct (skip_ws r3) as [|c3 r4] eqn:Ew3; [discriminate|].
      apply ws_frame in Ew3 as (w3 & -> & W3).
      destruct (c3 =? chr_dquote)%N eqn:E4; [|discriminate].
      apply IH2 in H as (o4 & -> & F4).
      exists (o0 ++ w0 ++ c0 :: w1 ++ c1 :: o2 ++ w2 ++ c2 :: w3 ++ c3 :: o4).
      split; [now norm|]. intros y. norm.
      rewrite JSONObject_S, F0, W0, Ec, W1.
      rewrite F2, W2, E2, E3, W3, E4; [apply F4|].
      apply V. apply N.eqb_eq in E3; subst c2. reflexivity.
  - intros s r H. rewrite JSONArray_S in H.
    destruct (scan_once n s) as [[r0|]|] eqn:E0; try discriminate.
    apply IH1 in E0 as (c & o & -> & F).
    destruct (skip_ws r0) as [|c1 r1] eqn:Ew; [discriminate|].
    apply ws_frame in Ew as (w & -> & W).
    assert (V : forall z, ends_value (c1 :: z) = true ->
                          ends_value (w ++ c1 :: z) = true).
    { intros z Hz. eapply ends_value_skip_ws; [apply W|exact Hz]. }
    destruct (c1 =? chr_rbracket)%N eqn:E1.
    + injection H as ->. exists c, (o ++ w ++ [c1]).
      split; [now norm|]. intros y. norm.
      rewrite JSONArray_S, F, W, E1; [reflexivity|].
      apply V. apply N.eqb_eq in E1; subst c1. reflexivity.
    + destruct (c1 =? chr_comma)%N eqn:E2; [|discriminate].
      destruct (skip_ws r1) as [|c2 t2] eqn:Ew2;
        [now apply JSONArray_nil in H|].
      apply ws_frame in Ew2 as (w2 & -> & W2).
      apply IH3 in H as (c2' & o3 & E & F3). injection E as <- ->.
      exists c, (o ++ w ++ c1 :: w2 ++ c2 :: o3).
      split; [now norm|]. intros y. norm.
      rewrite JSONArray_S, F, W, E1, E2, W2; [apply F3|].
      apply V. apply N.eqb_eq in E2; subst c1. reflexivity.
Qed.

End FrameFacts.

Section TruncationFacts.
Import Json JsonFacts FrameFacts.

Lemma decode_head n s c :
  hd_error s = Some c -> (c =? chr_bom)%N = false ->
  decode n s =
  match scan_once n (skip_ws s) with
  | None => None
  | Some (PErr m) => Some (Failed m)
  | Some (POk r) =>
    match skip_ws r with
    | [] => Some Parsed
    | r' => Some (ExtraData (length s - length r'))
    end
  end.
Proof.
  destruct s as [|a t]; [discriminate|]. intros H; injection H as ->.
  intros E. unfold decode. now rewrite E.
Qed.

Lemma firstn_length_app (p x : str) : firstn (length p) (p ++ x) = p.
Proof.
  rewrite firstn_app, Nat.sub_diag, firstn_all. simpl.
  now rewrite app_nil_r.
Qed.

(** [Extra data] at [pos]: the text before [pos] is a complete document,
    which [loads] accepts. *)
Lemma loads_extra_prefix s pos :
  loads s = ExtraData pos -> loads (firstn pos s) = Parsed.
Proof.
  intros H. unfold loads in H.
  destruct (decode (fuel_for s) s) as [o|] eqn:Ed; [subst o|discriminate].
  destruct s as [|c t] eqn:Es; [discriminate|]. rewrite <- Es in *.
  assert (Hh : hd_error s = Some c) by now rewrite Es.
  clear Es t.
  destruct (c =? chr_bom)%N eqn:Eb.
  { destruct s; [discriminate|]. injection Hh as ->.
    unfold decode in Ed. rewrite Eb in Ed. discriminate. }
  rewrite (decode_head _ _ Hh Eb) in Ed.
  destruct (scan_once _ _) as [[r|m]|] eqn:E; try discriminate.
  destruct (skip_ws s) as [|c0 v] eqn:Ew;
    [now apply scan_once_nil in E|].
  apply ws_frame in Ew as (w & Es & W).
  apply scan_frame in E as (c0' & o & Ev & F). injection Ev as <- ->.
  destruct (skip_ws_split r) as (wr & Er & Fr).
  destruct (skip_ws r) as [|c' r'] eqn:Ew'; [discriminate|].
  injection Ed as <-.
  assert (Ewr : skip_ws wr = []).
  { rewrite <- (app_nil_r wr). now rewrite skip_ws_all_ws. }
  set (p := w ++ c0 :: o ++ wr).
  assert (Ep : s = p ++ c' :: r').
  { rewrite Es, Er. unfold p. now norm. }
  assert (Hp : hd_error p = Some c).
  { rewrite Ep in Hh. unfold p in *. destruct w; exact Hh. }
  replace (length s - S (length r')) with (length p)
    by (rewrite Ep, length_app; simpl; lia).
  rewrite Ep, firstn_length_app.
  assert (D : decode (fuel_for s) p = Some Parsed).
  { rewrite (decode_head _ _ Hp Eb). unfold p. rewrite W.
    rewrite F by now apply ws_frame_end. now rewrite Ewr. }
  assert (L : fuel_for p <= fuel_for s).
  { rewrite Ep. apply fuel_for_app. }
  rewrite (loads_decode L) in D. congruence.
Qed.

Lemma find_brace_head buffer start :
  find_brace buffer = Some start ->
  hd_error (skipn start buffer) = Some chr_lbrace.
Proof.
  revert start; induction buffer as [|c t IH]; intros start; simpl;
    [discriminate|].
  destruct (N.eqb_spec c chr_lbrace) as [->|_].
  - intros H; injection H as <-. reflexivity.
  - destruct (find_brace t) as [k|]; [|discriminate].
    intros H; injection H as <-. now apply IH.
Qed.

Lemma hd_error_firstn (s : str) k :
  0 < k -> hd_error (firstn k s) = hd_error s.
Proof. destruct k; [lia|]. now destruct s. Qed.

(** What the inner loop hands to the dispatcher is an object that
    [loads] accepts. *)
Lemma drain_message_whole buffer start :
  find_brace buffer = Some start ->
  Json.loads (skipn start buffer) = Json.Parsed ->
  record_ok (skipn start buffer).
Proof. intros Hf Hl. split; [now apply find_brace_head|exact Hl]. Qed.

Lemma drain_message_prefix buffer start pos :
  find_brace buffer = Some start ->
  Json.loads (skipn start buffer) = Json.ExtraData pos ->
  record_ok (firstn pos (skipn start buffer)).
Proof.
  intros Hf Hl. split.
  - rewrite hd_error_firstn by (apply loads_extra_pos in Hl; lia).
    now apply find_brace_head.
  - now apply loads_extra_prefix.
Qed.

End TruncationFacts.

Section Returns.

Variable I : list event -> Prop.
Hypothesis I_nil : I [].
Hypothesis I_app : forall a b, I a -> I b -> I (a ++ b).

Lemma returns_runs A (c : M A) : returns I c -> runs I c.
Proof.
  intros H w. destruct (H w) as (a & w' & t & E & X).
  now exists (Ret a), w', t.
Qed.

Lemma returns_ret A (a : A) : returns I (ret a).
Proof.
  intros w. exists a, w, []. repeat split; auto. now rewrite app_nil_r.
Qed.

Lemma returns_bind A B (c : M A) (k : A -> M B) :
  returns I c -> (forall a, returns I (k a)) -> returns I (bind c k).
Proof.
  intros Hc Hk w. unfold bind.
  destruct (Hc w) as (a & w1 & t1 & E1 & S1 & T1 & I1). rewrite E1.
  destruct (Hk a w1) as (b & w2 & t2 & E2 & S2 & T2 & I2).
  exists b, w2, (t1 ++ t2). split; [exact E2|].
  split; [eapply same_connections_trans; eauto|].
  split; [now rewrite T2, T1, app_assoc|auto].
Qed.

Lemma returns_try A (c : M A) (h : exn -> M A) :
  runs I c -> (forall e, returns I (h e)) -> returns I (try_except c h).
Proof.
  intros Hc Hh w. unfold try_except.
  destruct (Hc w) as (r & w1 & t1 & E1 & S1 & T1 & I1). rewrite E1.
  destruct r as [a|e].
  - now exists a, w1, t1.
  - destruct (Hh e w1) as (b & w2 & t2 & E2 & S2 & T2 & I2).
    exists b, w2, (t1 ++ t2). split; [exact E2|].
    split; [eapply same_connections_trans; eauto|].
    split; [now rewrite T2, T1, app_assoc|auto].
Qed.

Lemma returns_emit e : I [e] -> returns I (emit e).
Proof.
  intros He w. do 2 eexists. exists [e]. split; [reflexivity|].
  repeat split; auto.
Qed.

Lemma returns_set_self f :
  (forall s, connections_handled (f s) = connections_handled s
             /\ max_message_size (f s) = max_message_size s
             /\ metrics_interval (f s) = metrics_interval s) ->
  returns I (set_self f).
Proof.
  intros Hf w. do 2 eexists. exists []. split; [reflexivity|].
  repeat split; simpl; auto; try apply Hf. now rewrite app_nil_r.
Qed.

Lemma returns_get_self : returns I get_self.
Proof.
  intros w. exists (self w), w, []. repeat split; auto.
  now rewrite app_nil_r.
Qed.

End Returns.

(** The dispatcher, for a property of traces that holds of every single
    event but [Close] and the dispatch of a message outside [P]. *)
Section Dispatcher.

Variable ep : nat -> http_outcome * Q.
Variable I : list event -> Prop.
Hypothesis I_nil : I [].
Hypothesis I_app : forall a b, I a -> I b -> I (a ++ b).
Variable P : str -> Prop.
Hypothesis I_event :
  forall e, e <> Close -> (forall m, e = Dispatch m -> P m) -> I [e].

Lemma I_quiet e :
  e <> Close -> (forall m, e <> Dispatch m) -> I [e].
Proof. intros H1 H2. apply I_event; [exact H1|]. intros m E. now elim (H2 m). Qed.

Ltac run :=
  first
    [ match goal with
      | |- runs _ (if ?b then _ else _) => destruct b
      | |- runs _ (match ?x with _ => _ end) => destruct x
      end
    | apply runs_bind; [exact I_app| |intros]
    | apply runs_try; [exact I_app| |intros]
    | apply runs_ret; exact I_nil
    | apply runs_raise; exact I_nil
    | apply runs_get_self; exact I_nil
    | apply runs_time_time; exact I_nil
    | apply runs_elapse; exact I_nil
    | apply runs_set_self; [exact I_nil|intros; repeat split]
    | apply runs_emit; apply I_quiet; [discriminate|intros ?; discriminate] ].

Lemma runs_requests_post g : runs I (requests_post ep g).
Proof.
  intros w. unfold requests_post.
  destruct (ep (posts_made w)) as [[st| |e] d];
    do 2 eexists; exists [Post g]; (split; [reflexivity|]);
    repeat split; (apply I_quiet; [discriminate|intros ?; discriminate]).
Qed.

Lemma runs_forward_loop retries delay attempts g :
  runs I (forward_loop ep retries delay attempts g).
Proof.
  induction attempts as [|a rest IH]; simpl.
  - run.
  - apply runs_bind; [exact I_app| |].
    + apply runs_try; [exact I_app| |].
      * apply runs_bind; [exact I_app|apply runs_requests_post|].
        intros; run.
      * intros e. unfold time_sleep. repeat run.
    + intros [st|]; [run|exact IH].
Qed.

Lemma runs_log_metrics : runs I log_metrics.
Proof. unfold log_metrics, logger. repeat run. Qed.

Lemma runs_classify_response a : runs I (classify_response a).
Proof.
  unfold classify_response, logger, incr_failed, incr_processed.
  repeat run.
Qed.

Lemma returns_process_message_except e :
  returns I (process_message_except e).
Proof.
  unfold process_message_except, logger, incr_failed.
  destruct e;
    repeat first
      [ apply returns_bind; [exact I_app| |intros]
      | apply returns_emit; apply I_quiet; [discriminate|intros ?; discriminate]
      | apply returns_get_self; exact I_nil
      | apply returns_set_self; [exact I_nil|intros; repeat split] ].
Qed.

(** The dispatcher lets no exception out. *)
Lemma returns_process_message m :
  P m -> returns I (process_message ep m).
Proof.
  intros Hm. unfold process_message.
  apply returns_bind; [exact I_app| |].
  { apply returns_emit, I_event; [discriminate|].
    intros m' H; injection H as <-; exact Hm. }
  intros _.
  apply returns_try; [exact I_app| |apply returns_process_message_except].
  unfold py_json_loads.
  apply runs_bind; [exact I_app|repeat run|]. intros g.
  apply runs_bind; [exact I_app|apply runs_forward_loop|]. intros r.
  apply runs_bind; [exact I_app|apply runs_classify_response|]. intros _.
  apply runs_log_metrics.
Qed.

End Dispatcher.

(** The handler, for a property of traces that holds of every log record
    and of what the dispatcher does with an object that parses. *)
Section Handler.

Variable ep : nat -> http_outcome * Q.
Variable I : list event -> Prop.
Hypothesis I_nil : I [].
Hypothesis I_app : forall a b, I a -> I b -> I (a ++ b).
Hypothesis I_log : forall r, I [Log r].
Hypothesis I_dispatch :
  forall m, record_ok m -> returns I (process_message ep m).

(** The inner loop ends and lets no exception out. *)
Lemma returns_drain n buffer :
  length buffer < n -> returns I (drain ep n buffer).
Proof.
  revert buffer; induction n as [|n IH]; intros buffer Hl; [lia|].
  rewrite drain_S.
  destruct (find_brace buffer) as [start|] eqn:Ef;
    [|now apply returns_ret].
  destruct (Json.loads (skipn start buffer)) as [|pos|m] eqn:El.
  - apply returns_bind; [exact I_app| |].
    { apply I_dispatch. now apply drain_message_whole. }
    intros _; now apply returns_ret.
  - apply returns_bind; [exact I_app| |].
    { apply I_dispatch. now apply drain_message_prefix. }
    intros _. apply IH.
    apply JsonFacts.loads_extra_pos in El.
    rewrite length_skipn in *. lia.
  - now apply returns_ret.
Qed.

Lemma runs_feed_events buffer data : runs I (feed ep buffer data).
Proof.
  unfold feed, bytes_decode.
  apply runs_bind; [exact I_app| |].
  - destruct (Utf8.decode data); [now apply runs_ret|now apply runs_raise].
  - intros d. apply returns_runs, returns_drain. lia.
Qed.

(** The read loop ends and lets no exception out. *)
Lemma returns_read_loop socket buffer :
  returns I (read_loop ep socket buffer).
Proof.
  revert buffer; induction socket as [|[data|] rest IH]; intros buffer; simpl.
  - now apply returns_ret.
  - destruct data as [|b data']; [now apply returns_ret|].
    apply returns_bind; [exact I_app| |].
    + apply returns_try; [exact I_app| |].
      * apply runs_bind; [exact I_app|apply runs_feed_events|].
        intros; now apply runs_ret.
      * intros e. apply returns_bind; [exact I_app| |].
        -- apply returns_emit, I_log.
        -- intros; now apply returns_ret.
    + intros [b'|]; [apply IH|now apply returns_ret].
  - apply returns_emit, I_log.
Qed.

(** The handler: the count of connections goes up by one, the read loop
    runs, the socket is closed. *)
Lemma handle_client_returns socket w :
  exists w' t,
    handle_client ep socket w = Some (Ret tt, w')
    /\ trace w' = trace w ++ t ++ [Close]
    /\ I t.
Proof.
  unfold handle_client.
  unfold bind at 1, get_self at 1. cbv beta iota.
  unfold bind at 1, set_self at 1. cbv beta iota.
  set (w1 := {| self := _ |}).
  destruct (returns_read_loop socket [] w1) as ([] & w2 & t & E & _ & T & C).
  unfold bind. rewrite E. unfold emit.
  eexists. exists t. split; [reflexivity|]. simpl. rewrite T.
  unfold w1; simpl. rewrite <- app_assoc. split; [reflexivity|exact C].
Qed.

End Handler.

Lemma no_close_nil : no_close [].
Proof. intros []. Qed.

Lemma no_close_app a b : no_close a -> no_close b -> no_close (a ++ b).
Proof.
  unfold no_close. intros Ha Hb H. apply in_app_or in H. tauto.
Qed.

Lemma no_close_event e :
  e <> Close -> (forall m, e = Dispatch m -> True) -> no_close [e].
Proof. intros He _ [H|[]]. congruence. Qed.

Lemma trace_tail_unique (w w' : World) t t' :
  trace w' = trace w ++ t -> trace w' = trace w ++ t' -> t = t'.
Proof. intros H1 H2. rewrite H1 in H2. now apply app_inv_head in H2. Qed.

Lemma skipn_suffix (b : str) k : is_suffix (skipn k b) b.
Proof. exists (firstn k b). now rewrite firstn_skipn. Qed.

Lemma is_suffix_trans a b c : is_suffix a b -> is_suffix b c -> is_suffix a c.
Proof. apply SuffixFacts.suffix_trans. Qed.

(** What the inner loop leaves: a tail of the buffer it was given, empty
    or unparsable from its first brace. *)
Lemma drain_leaves (ep : nat -> http_outcome * Q) n :
  forall buffer w,
    length buffer < n ->
    exists b' w',
      drain ep n buffer w = Some (Ret b', w')
      /\ is_suffix b' buffer
      /\ (b' = []
          \/ exists start msg,
               find_brace b' = Some start
               /\ Json.loads (skipn start b') = Json.Failed msg).
Proof.
  induction n as [|n IH]; intros buffer w Hl; [lia|].
  rewrite drain_S.
  destruct (find_brace buffer) as [start|] eqn:Ef.
  - destruct (Json.loads (skipn start buffer)) as [|pos|m] eqn:El.
    + destruct (process_message_total ep (skipn start buffer) w)
        as (w1 & t1 & E1 & _).
      unfold bind. rewrite E1. exists [], w1.
      split; [reflexivity|]. split; [apply SuffixFacts.suffix_nil|now left].
    + destruct (process_message_total ep
                  (firstn pos (skipn start buffer)) w) as (w1 & t1 & E1 & _).
      unfold bind. rewrite E1.
      assert (Hl' : length (skipn (start + pos) buffer) < n).
      { apply JsonFacts.loads_extra_pos in El.
        rewrite length_skipn in *. lia. }
      destruct (IH _ w1 Hl') as (b' & w2 & E2 & S2 & P2).
      exists b', w2. split; [exact E2|]. split; [|exact P2].
      eapply is_suffix_trans; [exact S2|apply skipn_suffix].
    + exists buffer, w. split; [reflexivity|].
      split; [apply SuffixFacts.suffix_refl|].
      right. now exists start, m.
  - exists [], w. split; [reflexivity|].
    split; [apply SuffixFacts.suffix_nil|now left].
Qed.








Lemma decode_ascii bs :
  Forall (fun b => (Byte.to_N b < 128)%N) bs ->
  Utf8.decode bs = Some (map Byte.to_N bs).
Proof.
  induction 1 as [|b bs Hb _ IH]; [reflexivity|].
  simpl. apply N.ltb_lt in Hb. rewrite Hb, IH. reflexivity.
Qed.

Lemma ascii_chunks_decode chunks :
  Forall (fun c : list byte => c <> []) chunks ->
  Forall (fun b => (Byte.to_N b < 128)%N) (concat chunks) ->
  Forall2 (fun c d => c <> [] /\ Utf8.decode c = Some d)
    chunks (map (map Byte.to_N) chunks).
Proof.
  induction 1 as [|c chunks Hc _ IH]; intros Ha; simpl; constructor.
  - simpl in Ha. apply Forall_app in Ha as [Ha _].
    split; [exact Hc|now apply decode_ascii].
  - apply IH. simpl in Ha. now apply Forall_app in Ha as [_ Ha].
Qed.



Lemma process_message_except_counts e w :
  exists w' t,
    process_message_except e w = Some (Ret tt, w')
    /\ self w'
       = set_messages_failed (messages_failed (self w) + 1) (self w)
    /\ trace w' = trace w ++ t
    /\ (forall p, ~ In (Log (TotalProcessed p)) t).
Proof.
  destruct e; eexists; eexists; (split; [reflexivity|]); simpl;
    (split; [reflexivity|]);
    first [ split; [symmetry; apply app_nil_r|intros p []]
          | split; [reflexivity|intros p [H|[]]; discriminate] ].
Qed.

Lemma classify_response_counts a w :
  exists r w' t,
    classify_response a w = Some (r, w')
    /\ trace w' = trace w ++ t
    /\ now w' = now w
    /\ match r with
       | Ret _ =>
         self w' = set_messages_processed
                     (messages_processed (self w) + 1) (self w)
         \/ self w' = set_messages_failed
                        (messages_failed (self w) + 1) (self w)
       | Raise _ => self w' = self w
       end.
Proof.
  unfold classify_response. destruct a as [st|].
  - unfold bind, ret. destruct (status_ok st); simpl.
    + do 3 eexists. split; [reflexivity|]. simpl.
      split; [symmetry; apply app_nil_r|]. split; [reflexivity|now left].
    + do 3 eexists. split; [reflexivity|]. simpl.
      split; [reflexivity|]. split; [reflexivity|now right].
  - do 3 eexists. split; [reflexivity|]. simpl.
    split; [symmetry; apply app_nil_r|]. split; reflexivity.
Qed.

(** X6.  With a positive metrics interval (it is 60), every call of the
    dispatcher counts its record exactly once: either one of the two
    counters has gone up by one and the other is unchanged, or the call
    has triggered the report, the report shows totals that include this
    record, and both counters are back to zero. *)
Theorem process_message_counts_each_record_once
    (ep : nat -> http_outcome * Q) (message : str) (w : World) :
  (0 < metrics_interval (self w))%Q ->
  exists w' t,
    process_message ep message w = Some (Ret tt, w')
    /\ trace w' = trace w ++ t
    /\ ((messages_processed (self w') = (messages_processed (self w) + 1)%Z
         /\ messages_failed (self w') = messages_failed (self w))
        \/ (messages_processed (self w') = messages_processed (self w)
            /\ messages_failed (self w') = (messages_failed (self w) + 1)%Z)
        \/ (messages_processed (self w') = 0%Z
            /\ messages_failed (self w') = 0%Z
            /\ exists p f,
                 In (Log (TotalProcessed p)) t
                 /\ In (Log (TotalFailed f)) t
                 /\ (p + f = messages_processed (self w)
                             + messages_failed (self w) + 1)%Z)).
Proof.
  intros Hi.
  destruct (Json.loads message) eqn:E.
  2,3: rewrite process_message_unparsable by congruence;
    (do 2 eexists; split; [reflexivity|]; split; [reflexivity|];
     right; left; split; reflexivity).
  unfold process_message, py_json_loads. rewrite E.
  unfold bind at 1. unfold emit at 1. cbv beta iota.
  set (w1 := {| self := self w; now := now w; posts_made := posts_made w;
                trace := trace w ++ [Dispatch message] |}).
  unfold try_except, bind at 1 2. unfold ret at 1. cbv beta iota.
  destruct (forward_total ep message w1)
    as (r & w2 & Ef & Hs & t & Ht & _).
  rewrite Ef.
  assert (T2 : trace w2 = trace w ++ Dispatch message :: t).
  { rewrite Ht. unfold w1; simpl. now rewrite <- app_assoc. }
  assert (S2 : self w2 = self w) by (rewrite Hs; reflexivity).
  destruct r as [a|e].
  - unfold bind.
    destruct (classify_response_counts a w2)
      as (r3 & w3 & t3 & E3 & T3 & N3 & C3).
    rewrite E3. destruct r3 as [[]|e].
    + (* classified; then the metrics *)
      assert (Hi3 : metrics_interval (self w3) = metrics_interval (self w))
        by (destruct C3 as [-> | ->]; simpl; now rewrite S2).
      destruct (Qle_bool (metrics_interval (self w3))
                  (now w3 - last_metrics_time (self w3))) eqn:E1.
      * assert (E2 : Qeq_bool (now w3 - last_metrics_time (self w3)) 0
                     = false).
        { destruct (Qeq_bool _ 0) eqn:X; [|reflexivity].
          apply Qeq_bool_eq in X. apply Qle_bool_iff in E1.
          rewrite X, Hi3 in E1. exfalso. apply (Qlt_irrefl 0).
          eapply Qlt_le_trans; eauto. }
        rewrite (@log_metrics_snapshot w3 E1 E2).
        eexists. eexists. split; [reflexivity|]. simpl.
        split; [rewrite T3, T2, <- !app_assoc; reflexivity|].
        right; right. split; [reflexivity|]. split; [reflexivity|].
        exists (messages_processed (self w3)), (messages_failed (self w3)).
        split; [rewrite !in_app_iff; right; right; simpl; tauto|].
        split; [rewrite !in_app_iff; right; right; simpl; tauto|].
        destruct C3 as [-> | ->]; simpl; rewrite S2; lia.
      * rewrite (@log_metrics_idle w3 E1).
        eexists. eexists. split; [reflexivity|].
        split; [rewrite T3, T2, <- !app_assoc; reflexivity|].
        destruct C3 as [-> | ->]; simpl; rewrite S2; [left|right; left];
          split; reflexivity.
    + destruct (process_message_except_counts e w3)
        as (w4 & t4 & E4 & S4 & T4 & _).
      rewrite E4. exists w4. eexists.
      split; [reflexivity|].
      split; [rewrite T4, T3, T2, <- !app_assoc; reflexivity|].
      right; left. rewrite S4, C3, S2. split; reflexivity.
  - destruct (process_message_except_counts e w2)
      as (w4 & t4 & E4 & S4 & T4 & _).
    rewrite E4. exists w4. eexists.
    split; [reflexivity|].
    split; [rewrite T4, T2, <- !app_assoc; reflexivity|].
    right; left. rewrite S4, S2. split; reflexivity.
Qed.

Lemma process_message_counts_each_record_once_witness :
  (0 < metrics_interval (self world_8_2))%Q
  /\ exists w' t,
       process_message always_ok (json_text "{'a':1}") world_8_2
       = Some (Ret tt, w')
       /\ trace w' = trace world_8_2 ++ t
       /\ ((messages_processed (self w')
            = (messages_processed (self world_8_2) + 1)%Z
            /\ messages_failed (self w') = messages_failed (self world_8_2))
           \/ (messages_processed (self w')
               = messages_processed (self world_8_2)
               /\ messages_failed (self w')
                  = (messages_failed (self world_8_2) + 1)%Z)
           \/ (messages_processed (self w') = 0%Z
               /\ messages_failed (self w') = 0%Z
               /\ exists p f,
                    In (Log (TotalProcessed p)) t
                    /\ In (Log (TotalFailed f)) t
                    /\ (p + f = messages_processed (self world_8_2)
                                + messages_failed (self world_8_2) + 1)%Z)).
Proof.
  assert (H : (0 < metrics_interval (self world_8_2))%Q) by reflexivity.
  split; [exact H|].
  exact (@process_message_counts_each_record_once always_ok
           (json_text "{'a':1}") world_8_2 H).
Defined.

(** X7.  With a positive metrics interval, [log_metrics] never raises, and
    a second call at the same instant changes nothing: report or not, the
    world it leaves is one in which no report is due. *)
Theorem log_metrics_twice_is_once (w : World) :
  (0 < metrics_interval (self w))%Q ->
  exists w',
    log_metrics w = Some (Ret tt, w')
    /\ log_metrics w' = Some (Ret tt, w').
Proof.
  intros Hi.
  destruct (Qle_bool (metrics_interval (self w))
              (now w - last_metrics_time (self w))) eqn:E1.
  - assert (E2 : Qeq_bool (now w - last_metrics_time (self w)) 0 = false).
    { destruct (Qeq_bool _ 0) eqn:X; [|reflexivity].
      apply Qeq_bool_eq in X. apply Qle_bool_iff in E1.
      rewrite X in E1. exfalso. apply (Qlt_irrefl 0).
      eapply Qlt_le_trans; eauto. }
    rewrite (@log_metrics_snapshot w E1 E2).
    eexists. split; [reflexivity|].
    apply log_metrics_idle. simpl. apply Qle_bool_false.
    setoid_replace (now w - now w)%Q with 0%Q by ring. exact Hi.
  - rewrite (@log_metrics_idle w E1). exists w. split; [reflexivity|].
    now apply log_metrics_idle.
Qed.

Lemma log_metrics_twice_is_once_witness :
  (0 < metrics_interval (self world_8_2))%Q
  /\ exists w',
       log_metrics world_8_2 = Some (Ret tt, w')
       /\ log_metrics w' = Some (Ret tt, w').
Proof.
  assert (H : (0 < metrics_interval (self world_8_2))%Q) by reflexivity.
  split; [exact H|]. exact (@log_metrics_twice_is_once world_8_2 H).
Defined.

(** X8.  The failure rate of the report is a percentage: for counters that
    are not negative it lies between 0 and 100, and with no record counted
    it is 0, the division being skipped. *)
Theorem failure_rate_is_a_percentage (processed failed : Z) :
  (0 <= processed)%Z -> (0 <= failed)%Z ->
  (0 <= failure_rate processed failed)%Q
  /\ (failure_rate processed failed <= 100)%Q
  /\ (processed + failed = 0 -> failure_rate processed failed = 0%Q)%Z.
Proof.
  intros Hp Hf. unfold failure_rate.
  destruct (0 <? processed + failed)%Z eqn:E.
  - apply Z.ltb_lt in E.
    destruct (processed + failed)%Z as [|d|d] eqn:Ed; try lia.
    unfold Qle, Qdiv, Qmult, Qinv, inject_Z. simpl.
    repeat split; try lia; try nia.
  - repeat split; try reflexivity; discriminate.
Qed.

Lemma failure_rate_is_a_percentage_witness :
  (0 <= 8)%Z /\ (0 <= 2)%Z
  /\ (0 <= failure_rate 8 2)%Q
  /\ (failure_rate 8 2 <= 100)%Q
  /\ (8 + 2 = 0 -> failure_rate 8 2 = 0%Q)%Z.
Proof.
  assert (H1 : (0 <= 8)%Z) by lia. assert (H2 : (0 <= 2)%Z) by lia.
  split; [exact H1|]. split; [exact H2|].
  exact (@failure_rate_is_a_percentage 8 2 H1 H2).
Defined.

Lemma only_records_nil : Forall record_ok (dispatched []).
Proof. constructor. Qed.

Lemma only_records_app a b :
  Forall record_ok (dispatched a) -> Forall record_ok (dispatched b) ->
  Forall record_ok (dispatched (a ++ b)).
Proof. intros Ha Hb. rewrite dispatched_app. now apply Forall_app. Qed.

Lemma only_records_event e :
  e <> Close -> (forall m, e = Dispatch m -> record_ok m) ->
  Forall record_ok (dispatched [e]).
Proof.
  intros _ H. destruct e; simpl; try constructor; auto.
Qed.


Lemma posted_dispatched_nil : posted [] = dispatched [].
Proof. reflexivity. Qed.

Lemma posted_dispatched_app a b :
  posted a = dispatched a -> posted b = dispatched b ->
  posted (a ++ b) = dispatched (a ++ b).
Proof. intros Ha Hb. now rewrite posted_app, dispatched_app, Ha, Hb. Qed.

(** An object that parses, and an endpoint that answers: one request. *)
Lemma process_message_responsive (ep : nat -> http_outcome * Q) m :
  responsive ep -> Json.loads m = Json.Parsed ->
  returns (fun t => posted t = dispatched t) (process_message ep m).
Proof.
  intros Hr E w.
  unfold process_message, py_json_loads. rewrite E.
  unfold bind at 1. unfold emit at 1. cbv beta iota.
  set (w1 := {| self := self w; now := now w; posts_made := posts_made w;
                trace := trace w ++ [Dispatch m] |}).
  unfold try_except, bind at 1 2. unfold ret at 1. cbv beta iota.
  destruct (Hr (posts_made w1)) as (st & Hst).
  destruct (@forward_response ep m w1 0 st) as (w2 & Ef & Ht & _ & Hs).
  { lia. }
  { intros i Hi; lia. }
  { now rewrite Nat.add_0_r. }
  rewrite Ef.
  assert (S12 : same_connections w w2).
  { unfold same_connections. rewrite Hs. repeat split. }
  assert (T2 : trace w2 = trace w ++ [Dispatch m; Post m]).
  { rewrite Ht. unfold w1; simpl. now rewrite <- app_assoc. }
  destruct (@runs_bind quiet quiet_app _ _ _ _
             (quiet_classify_response (Some st))
             (fun _ => quiet_log_metrics) w2)
    as (r3 & w3 & t3 & E3 & S3 & T3 & D3 & P3).
  rewrite E3. destruct r3 as [[]|e].
  - exists tt, w3, ([Dispatch m; Post m] ++ t3). split; [reflexivity|].
    split; [eapply same_connections_trans; eauto|].
    split; [rewrite T3, T2, <- app_assoc; reflexivity|].
    simpl. now rewrite D3, P3.
  - destruct (quiet_process_message_except e w3)
      as (r4 & w4 & t4 & E4 & S4 & T4 & D4 & P4).
    destruct (process_message_except_returns e w3) as (w4' & E4').
    rewrite E4 in E4'. injection E4' as -> <-. rewrite E4.
    exists tt, w4, ([Dispatch m; Post m] ++ t3 ++ t4).
    split; [reflexivity|].
    split; [eapply same_connections_trans; [|eauto];
            eapply same_connections_trans; eauto|].
    split; [rewrite T4, T3, T2, <- !app_assoc; reflexivity|].
    simpl. now rewrite !dispatched_app, !posted_app, D3, D4, P3, P4.
Qed.



(** X11.  [forward_to_function] never falls out of its loop: whatever the
    endpoint does, it returns a response or raises, and never returns
    [None]; the last attempt re-raises what the earlier ones swallow.  The
    dispatcher can therefore read [response.status_code] of whatever it
    gets back. *)
Theorem forward_never_returns_none
    (ep : nat -> http_outcome * Q) (gelf_data : str) (w : World) :
  exists r w',
    forward_to_function ep gelf_data w = Some (r, w')
    /\ r <> Ret None.
Proof.
  unfold forward_to_function, forward_loop, requests_post, try_except, bind,
    ret, raise, time_sleep, emit, elapse. simpl.
  repeat lazymatch goal with
  | |- context [ep ?n] => destruct (ep n) as [[?|  |[]] ?]; simpl
  end;
  (do 2 eexists; split; [reflexivity|discriminate]).
Qed.

(** X12.  Only a [RequestException] is retried.  When [requests.post] raises
    anything else, the first attempt is the only one: one request, no
    sleep, and the exception leaves [forward_to_function] at once. *)
Theorem other_exception_is_not_retried
    (ep : nat -> http_outcome * Q) (gelf_data : str) (w : World) (e : exn) :
  fst (ep (posts_made w)) = PostRaises e ->
  e <> RequestException ->
  exists w',
    forward_to_function ep gelf_data w = Some (Raise e, w')
    /\ trace w' = trace w ++ [Post gelf_data]
    /\ posts_made w' = S (posts_made w)
    /\ self w' = self w.
Proof.
  intros H He.
  unfold forward_to_function, forward_loop, requests_post, try_except, bind,
    ret, raise. simpl.
  destruct (ep (posts_made w)) as [o d]. simpl in H; subst o.
  destruct e; try congruence;
    (eexists; split; [reflexivity|]; repeat split).
Qed.

Lemma other_exception_is_not_retried_witness :
  fst ((fun _ : nat => (PostRaises OtherError, 0%Q)) (posts_made world0))
  = PostRaises OtherError
  /\ OtherError <> RequestException
  /\ exists w',
       forward_to_function (fun _ => (PostRaises OtherError, 0%Q))
         (json_text "{'a':1}") world0 = Some (Raise OtherError, w')
       /\ trace w' = trace world0 ++ [Post (json_text "{'a':1}")]
       /\ posts_made w' = S (posts_made world0)
       /\ self w' = self world0.
Proof.
  assert (H1 : fst ((fun _ : nat => (PostRaises OtherError, 0%Q))
                      (posts_made world0)) = PostRaises OtherError)
    by reflexivity.
  assert (H2 : OtherError <> RequestException) by discriminate.
  split; [exact H1|]. split; [exact H2|].
  exact (@other_exception_is_not_retried
           (fun _ => (PostRaises OtherError, 0%Q))
           (json_text "{'a':1}") world0 OtherError H1 H2).
Defined.
